(** * Mutual Fund Calculator: the calculation library of [docs/assets/js/app.js]

    A shallow embedding of the calculator functions ([calculateSIP],
    [calculateTopUpSIP], [calculateLumpsum], [calculateCAGR],
    [calculateInflationAdjusted], [calculateSWP], [calculateSTP]) and of the
    two presentation helpers ([formatINR], [formatPercent]), followed by the
    properties of the specification that they satisfy or violate.

    Numbers.  A JavaScript number is embedded as an exact real number or one
    of the three special values [+Infinity], [-Infinity], [NaN].  The
    arithmetic operators and the [Math] functions follow ECMAScript on the
    special values (division by zero, [0/0], [Infinity - Infinity], the case
    table of [Math.pow], ...); on finite values they are the exact real
    operations.  Three things of IEEE-754 binary64 are therefore outside the
    model: the rounding error of each operation, overflow to infinity, and
    the sign of zero (zero behaves as [+0]).  Statements that the
    specification makes "within floating-point tolerance" are stated here as
    exact equalities of the real-valued model.

    Where one unit in the last place decides a whole-number result, the test
    and the ceiling of [calculateSWP], the function is embedded a second
    time on binary64 numbers ([calculateSWP_b64]), and the statements about
    the branch taken and the months returned are made there. *)

From Stdlib Require Import Reals Lra Lia ZArith List Bool Sorted.
From Stdlib Require Import Ascii String DecimalString.
From Stdlib Require Import Floats.PrimFloat Floats.SpecFloat Floats.FloatOps.
From Stdlib Require Import Uint63.
Import ListNotations.

Local Open Scope R_scope.

(* ================================================================= *)
(** ** Integer parts of a real *)

(** [Rfloor x] is the greatest integer below or equal to [x]. *)
Definition Rfloor (x : R) : Z := (up x - 1)%Z.

(** [Rceil x] is the least integer above or equal to [x]. *)
Definition Rceil (x : R) : Z := (- Rfloor (- x))%Z.

(** Truncation toward zero. *)
Definition Rtrunc (x : R) : Z := if Rle_dec 0 x then Rfloor x else Rceil x.

(** [Math.round]: the nearest integer, ties toward [+Infinity].  (For
    [-1/2 <= x < 0] JavaScript returns [-0], here [0]: the sign of zero is
    not represented.) *)
Definition Rround (x : R) : Z := Rfloor (x + / 2).

(* ================================================================= *)
(** ** JavaScript numbers *)

Inductive number : Type :=
| Fin (x : R)
| PInf
| NInf
| NaN.

Declare Scope js_scope.
Delimit Scope js_scope with js.
Bind Scope js_scope with number.

Definition inf_of (positive : bool) : number := if positive then PInf else NInf.

(** An infinity multiplied by the finite [x]. *)
Definition scale_inf (positive : bool) (x : R) : number :=
  if Rlt_dec 0 x then inf_of positive
  else if Rlt_dec x 0 then inf_of (negb positive)
  else NaN.

Definition js_add (a b : number) : number :=
  match a, b with
  | NaN, _ | _, NaN => NaN
  | Fin x, Fin y => Fin (x + y)
  | PInf, NInf | NInf, PInf => NaN
  | PInf, _ | _, PInf => PInf
  | NInf, _ | _, NInf => NInf
  end.

Definition js_neg (a : number) : number :=
  match a with
  | Fin x => Fin (- x)
  | PInf => NInf
  | NInf => PInf
  | NaN => NaN
  end.

Definition js_sub (a b : number) : number :=
  match a, b with
  | NaN, _ | _, NaN => NaN
  | Fin x, Fin y => Fin (x - y)
  | PInf, PInf | NInf, NInf => NaN
  | PInf, _ | _, NInf => PInf
  | NInf, _ | _, PInf => NInf
  end.

Definition js_mul (a b : number) : number :=
  match a, b with
  | NaN, _ | _, NaN => NaN
  | Fin x, Fin y => Fin (x * y)
  | Fin x, PInf | PInf, Fin x => scale_inf true x
  | Fin x, NInf | NInf, Fin x => scale_inf false x
  | PInf, PInf | NInf, NInf => PInf
  | PInf, NInf | NInf, PInf => NInf
  end.

Definition js_div (a b : number) : number :=
  match a, b with
  | NaN, _ | _, NaN => NaN
  | Fin x, Fin y =>
      if Req_dec_T y 0 then
        if Rlt_dec 0 x then PInf else if Rlt_dec x 0 then NInf else NaN
      else Fin (x / y)
  | Fin _, (PInf | NInf) => Fin 0
  | PInf, Fin y => if Rlt_dec y 0 then NInf else PInf
  | NInf, Fin y => if Rlt_dec y 0 then PInf else NInf
  | (PInf | NInf), (PInf | NInf) => NaN
  end.

(** The remainder operator [%]: the result has the sign of the dividend. *)
Definition js_rem (a b : number) : number :=
  match a, b with
  | NaN, _ | _, NaN => NaN
  | (PInf | NInf), _ => NaN
  | Fin x, (PInf | NInf) => Fin x
  | Fin x, Fin y =>
      if Req_dec_T y 0 then NaN else Fin (x - y * IZR (Rtrunc (x / y)))
  end.

(** Comparisons: every comparison with [NaN] is false. *)
Definition js_le (a b : number) : bool :=
  match a, b with
  | NaN, _ | _, NaN => false
  | Fin x, Fin y => if Rle_dec x y then true else false
  | NInf, _ | _, PInf => true
  | _, _ => false
  end.

Definition js_lt (a b : number) : bool :=
  match a, b with
  | NaN, _ | _, NaN => false
  | Fin x, Fin y => if Rlt_dec x y then true else false
  | PInf, _ | _, NInf => false
  | _, _ => true
  end.

(** Strict equality [===] on numbers. *)
Definition js_eq (a b : number) : bool :=
  match a, b with
  | Fin x, Fin y => if Req_dec_T x y then true else false
  | PInf, PInf | NInf, NInf => true
  | _, _ => false
  end.

Notation "a + b" := (js_add a b) : js_scope.
Notation "a - b" := (js_sub a b) : js_scope.
Notation "a * b" := (js_mul a b) : js_scope.
Notation "a / b" := (js_div a b) : js_scope.
Notation "- a" := (js_neg a) : js_scope.
Notation "a 'mod' b" := (js_rem a b) : js_scope.
Notation "a <= b" := (js_le a b) : js_scope.
Notation "a < b" := (js_lt a b) : js_scope.
Notation "a === b" := (js_eq a b) (at level 70, no associativity) : js_scope.

(** The value of a loop counter. *)
Definition of_nat (n : nat) : number := Fin (INR n).

(* ----------------------------------------------------------------- *)
(** *** The [Math] object *)

Definition is_integer (x : R) : bool :=
  if Req_dec_T x (IZR (Rfloor x)) then true else false.

Definition is_odd_integer (x : R) : bool := is_integer x && Z.odd (Rfloor x).

(** [Math.pow], by the case table of [Number::exponentiate]. *)
Definition Math_pow (base exponent : number) : number :=
  match exponent with
  | NaN => NaN
  | Fin y =>
      if Req_dec_T y 0 then Fin 1
      else
        match base with
        | NaN => NaN
        | PInf => if Rlt_dec 0 y then PInf else Fin 0
        | NInf =>
            if Rlt_dec 0 y then (if is_odd_integer y then NInf else PInf)
            else Fin 0
        | Fin x =>
            if Rlt_dec 0 x then Fin (Rpower x y)
            else if Req_dec_T x 0 then (if Rlt_dec 0 y then Fin 0 else PInf)
            else if is_integer y then Fin (powerRZ x (Rfloor y))
            else NaN
        end
  | PInf =>
      match base with
      | NaN => NaN
      | PInf | NInf => PInf
      | Fin x =>
          if Rlt_dec 1 (Rabs x) then PInf
          else if Req_dec_T (Rabs x) 1 then NaN
          else Fin 0
      end
  | NInf =>
      match base with
      | NaN => NaN
      | PInf | NInf => Fin 0
      | Fin x =>
          if Rlt_dec 1 (Rabs x) then Fin 0
          else if Req_dec_T (Rabs x) 1 then NaN
          else PInf
      end
  end.

(** [Math.log], the natural logarithm. *)
Definition Math_log (a : number) : number :=
  match a with
  | Fin x =>
      if Rlt_dec 0 x then Fin (ln x)
      else if Req_dec_T x 0 then NInf
      else NaN
  | PInf => PInf
  | NInf | NaN => NaN
  end.

Definition Math_floor (a : number) : number :=
  match a with Fin x => Fin (IZR (Rfloor x)) | _ => a end.

Definition Math_ceil (a : number) : number :=
  match a with Fin x => Fin (IZR (Rceil x)) | _ => a end.

Definition Math_round (a : number) : number :=
  match a with Fin x => Fin (IZR (Rround x)) | _ => a end.

Definition Math_min (a b : number) : number :=
  match a, b with
  | NaN, _ | _, NaN => NaN
  | _, _ => if js_le a b then a else b
  end.

(** The number of times the body of [for (let i = 1; i <= bound; i++)] runs:
    once for each integer from 1 up to [bound]; [None] when the loop never
    exits. *)
Definition loop_trips (bound : number) : option nat :=
  match bound with
  | Fin x => Some (Z.to_nat (Rfloor x))
  | PInf => None
  | NInf | NaN => Some 0%nat
  end.

(* ================================================================= *)
(** ** The calculators *)

(** The result shape [{ futureValue, totalInvested, estimatedReturns }] of
    [calculateSIP] and [calculateLumpsum]. *)
Record Returns : Type := mkReturns {
  futureValue : number;
  totalInvested : number;
  estimatedReturns : number
}.

Definition calculateSIP (P annualRate years : number) : Returns :=
  let r := (annualRate / Fin 100 / Fin 12)%js in
  let n := (years * Fin 12)%js in
  let futureValue :=
    (P * ((Math_pow (Fin 1 + r) n - Fin 1) / r) * (Fin 1 + r))%js in
  let totalInvested := (P * n)%js in
  let estimatedReturns := (futureValue - totalInvested)%js in
  mkReturns futureValue totalInvested estimatedReturns.

Definition calculateLumpsum (P annualRate years : number) : Returns :=
  let r := (annualRate / Fin 100)%js in
  let futureValue := (P * Math_pow (Fin 1 + r) years)%js in
  let estimatedReturns := (futureValue - P)%js in
  mkReturns futureValue P estimatedReturns.

Definition calculateCAGR (beginValue endValue years : number) : number :=
  ((Math_pow (endValue / beginValue) (Fin 1 / years) - Fin 1) * Fin 100)%js.

(** The result shape [{ inflationAdjustedValue, purchasingPowerLoss }]. *)
Record InflationResult : Type := mkInflationResult {
  inflationAdjustedValue : number;
  purchasingPowerLoss : number
}.

Definition calculateInflationAdjusted
    (nominalValue inflationRate years : number) : InflationResult :=
  let inflationAdjustedValue :=
    (nominalValue / Math_pow (Fin 1 + inflationRate / Fin 100) years)%js in
  let purchasingPowerLoss := (nominalValue - inflationAdjustedValue)%js in
  mkInflationResult inflationAdjustedValue purchasingPowerLoss.

(* ----------------------------------------------------------------- *)
(** *** Top-up SIP: year-by-year simulation *)

Module TopUp.

(** One element of [yearlyBreakdown]. *)
Record YearEntry : Type := mkYearEntry {
  year : number;
  monthlySIP : number;
  yearlyInvested : number;
  corpusAtEndOfYear : number
}.

Record Result : Type := mkResult {
  futureValue : number;
  totalInvested : number;
  estimatedReturns : number;
  yearlyBreakdown : list YearEntry
}.

End TopUp.

Module TopUpLoop.

(** The variables that the outer loop updates. *)
Record State : Type := mkState {
  corpus : number;
  totalInvested : number;
  yearlyBreakdown : list TopUp.YearEntry
}.

End TopUpLoop.

(** Body of the inner loop, on the pair [(corpus, yearlyInvested)]. *)
Definition topup_month (monthlySIP r : number) (s : number * number)
  : number * number :=
  let '(corpus, yearlyInvested) := s in
  (((corpus + monthlySIP) * (Fin 1 + r))%js, (yearlyInvested + monthlySIP)%js).

(** Body of the outer loop for the year [y]. *)
Definition topup_year (P r topUpRate : number) (st : TopUpLoop.State) (y : nat)
  : TopUpLoop.State :=
  let monthlySIP :=
    Math_round
      (P * Math_pow (Fin 1 + topUpRate / Fin 100) (of_nat y - Fin 1))%js in
  let '(corpus, yearlyInvested) :=
    Nat.iter 12 (topup_month monthlySIP r) (TopUpLoop.corpus st, Fin 0) in
  let totalInvested := (TopUpLoop.totalInvested st + yearlyInvested)%js in
  let corpus := Math_round corpus in
  TopUpLoop.mkState corpus totalInvested
    (TopUpLoop.yearlyBreakdown st ++
       [TopUp.mkYearEntry (of_nat y) monthlySIP yearlyInvested corpus]).

(** The state after the years [1 .. k]. *)
Definition topup_loop (P r topUpRate : number) (k : nat) : TopUpLoop.State :=
  fold_left (topup_year P r topUpRate) (seq 1 k)
    (TopUpLoop.mkState (Fin 0) (Fin 0) []).

Definition calculateTopUpSIP (P annualRate years topUpRate : number)
  : option TopUp.Result :=
  let r := (annualRate / Fin 100 / Fin 12)%js in
  match loop_trips years with
  | None => None
  | Some k =>
      let st := topup_loop P r topUpRate k in
      let futureValue := TopUpLoop.corpus st in
      let estimatedReturns := (futureValue - TopUpLoop.totalInvested st)%js in
      Some (TopUp.mkResult futureValue (TopUpLoop.totalInvested st)
              estimatedReturns (TopUpLoop.yearlyBreakdown st))
  end.

(* ----------------------------------------------------------------- *)
(** *** Systematic withdrawal plan *)

Module SWP.

Record Result : Type := mkResult {
  months : number;
  years : number;
  remainingMonths : number;
  totalWithdrawn : number;
  isIndefinite : bool
}.

End SWP.

(** On exact reals; where the withdrawal equals the monthly interest, or the
    duration is a whole number, binary64 rounding can decide otherwise: see
    [calculateSWP_b64]. *)
Definition calculateSWP (corpus monthlyWithdrawal annualRate : number)
  : SWP.Result :=
  let r := (annualRate / Fin 100 / Fin 12)%js in
  if (monthlyWithdrawal <= corpus * r)%js then
    SWP.mkResult (Fin 0) (Fin 0) (Fin 0) (Fin 0) true
  else
    let n :=
      if (r === Fin 0)%js then (corpus / monthlyWithdrawal)%js
      else (- Math_log (Fin 1 - (corpus * r) / monthlyWithdrawal)
            / Math_log (Fin 1 + r))%js in
    let months := Math_ceil n in
    let years := Math_floor (months / Fin 12)%js in
    let remainingMonths := (months mod Fin 12)%js in
    let totalWithdrawn := (monthlyWithdrawal * months)%js in
    SWP.mkResult months years remainingMonths totalWithdrawn false.

(** The duration that the specification gives for the annuity-depletion
    equation, with the monthly rate [r]: [C / W] at rate zero, and
    [-ln(1 - C*r/W) / ln(1 + r)] otherwise. *)
Definition swp_duration_spec (C W r : R) : R :=
  if Req_dec_T r 0 then C / W else - ln (1 - C * r / W) / ln (1 + r).

(* ----------------------------------------------------------------- *)
(** *** Systematic transfer plan: month-by-month simulation *)

Module STPMonth.

(** One element of [breakdown]; the three amounts are rounded. *)
Record Entry : Type := mkEntry {
  month : number;
  debtCorpus : number;
  equityCorpus : number;
  totalCorpus : number
}.

End STPMonth.

Module STP.

Record Result : Type := mkResult {
  debtCorpus : number;
  equityCorpus : number;
  totalCorpus : number;
  totalTransferred : number;
  breakdown : list STPMonth.Entry;
  directEquityValue : number;
  debtOnlyValue : number
}.

End STP.

Module STPLoop.

(** The variables that the loop updates. *)
Record State : Type := mkState {
  debtCorpus : number;
  equityCorpus : number;
  totalTransferred : number;
  breakdown : list STPMonth.Entry
}.

End STPLoop.

(** Body of the loop for the month [m]. *)
Definition stp_month (monthlyTransfer dr er : number) (st : STPLoop.State)
    (m : nat) : STPLoop.State :=
  let debtCorpus := (STPLoop.debtCorpus st * (Fin 1 + dr))%js in
  let transfer := Math_min monthlyTransfer debtCorpus in
  let debtCorpus := (debtCorpus - transfer)%js in
  let totalTransferred := (STPLoop.totalTransferred st + transfer)%js in
  let equityCorpus :=
    ((STPLoop.equityCorpus st + transfer) * (Fin 1 + er))%js in
  STPLoop.mkState debtCorpus equityCorpus totalTransferred
    (STPLoop.breakdown st ++
       [STPMonth.mkEntry (of_nat m) (Math_round debtCorpus)
          (Math_round equityCorpus)
          (Math_round (debtCorpus + equityCorpus)%js)]).

(** The state after the months [1 .. k]. *)
Definition stp_loop (lumpSum monthlyTransfer dr er : number) (k : nat)
  : STPLoop.State :=
  fold_left (stp_month monthlyTransfer dr er) (seq 1 k)
    (STPLoop.mkState lumpSum (Fin 0) (Fin 0) []).

Definition calculateSTP
    (lumpSum monthlyTransfer debtRate equityRate months : number)
  : option STP.Result :=
  let dr := (debtRate / Fin 100 / Fin 12)%js in
  let er := (equityRate / Fin 100 / Fin 12)%js in
  match loop_trips months with
  | None => None
  | Some k =>
      let st := stp_loop lumpSum monthlyTransfer dr er k in
      let totalCorpus := (STPLoop.debtCorpus st + STPLoop.equityCorpus st)%js in
      let directEquityValue :=
        (lumpSum
         * Math_pow (Fin 1 + equityRate / Fin 100 / Fin 12) months)%js in
      let debtOnlyValue :=
        (lumpSum
         * Math_pow (Fin 1 + debtRate / Fin 100 / Fin 12) months)%js in
      Some (STP.mkResult (STPLoop.debtCorpus st) (STPLoop.equityCorpus st)
              totalCorpus
              (STPLoop.totalTransferred st) (STPLoop.breakdown st)
              directEquityValue debtOnlyValue)
  end.

(* ----------------------------------------------------------------- *)
(** *** Presentation helpers *)

(** Modelled from the spec: the grouping that the runtime's
    [toLocaleString("en-IN")] applies is not part of the sources.  Commas
    between the two-digit groups of a reversed digit list. *)
Fixpoint group_pairs (ds : list ascii) : list ascii :=
  match ds with
  | a :: b :: ((_ :: _) as rest) => a :: b :: ","%char :: group_pairs rest
  | _ => ds
  end.

(** Modelled from the spec: grouping of a reversed digit list for the
    runtime's [toLocaleString("en-IN")], the three lowest digits, then
    pairs. *)
Definition group_en_IN_rev (ds : list ascii) : list ascii :=
  match ds with
  | a :: b :: c :: ((_ :: _) as rest) =>
      a :: b :: c :: ","%char :: group_pairs rest
  | _ => ds
  end.

(** Modelled from the spec: [Number.prototype.toLocaleString] with the locale
    ["en-IN"] belongs to the JavaScript runtime and is not part of the
    sources.  It is taken as the specification describes it: the decimal
    digits of the integer, grouped by the Indian numbering convention
    (2-digit groups after the first 3 digits from the right), with a
    leading minus sign for a negative integer. *)
Definition group_en_IN (z : Z) : string :=
  let digits :=
    list_ascii_of_string (NilZero.string_of_uint (N.to_uint (Z.abs_N z))) in
  let body := string_of_list_ascii (rev (group_en_IN_rev (rev digits))) in
  if (z <? 0)%Z then ("-" ++ body)%string else body.

(** Modelled from the spec: [toLocaleString("en-IN")] on the values that
    [Math.round] returns, integers and the special values; the fraction
    digits of other numbers are not represented. *)
Definition toLocaleString_en_IN (a : number) : string :=
  match a with
  | Fin x => group_en_IN (Rfloor x)
  | PInf => "∞"
  | NInf => "-∞"
  | NaN => "NaN"
  end.

Definition formatINR (value : number) : string :=
  ("Rs. " ++ toLocaleString_en_IN (Math_round value))%string.

(** [value + "%"]: the string conversion [toString] of the number, which the
    runtime provides, followed by the one-character string. *)
Definition formatPercent (toString : number -> string) (value : number)
  : string :=
  (toString value ++ "%")%string.

(* ----------------------------------------------------------------- *)
(** *** The comparison helper of the test suite ([app.test.js]) *)

(** [Math.abs]. *)
Definition Math_abs (a : number) : number :=
  match a with
  | Fin x => Fin (Rabs x)
  | PInf | NInf => PInf
  | NaN => NaN
  end.

(** [ToBoolean] on a number: [0] and [NaN] are falsy. *)
Definition truthy (a : number) : bool :=
  match a with
  | Fin x => if Req_dec_T x 0 then false else true
  | PInf | NInf => true
  | NaN => false
  end.

(** [approxEqual(a, b, tolerance)]; an omitted [tolerance] is [undefined],
    here [None], and [tolerance || 1] replaces every falsy tolerance. *)
Definition approxEqual (a b : number) (tolerance : option number) : bool :=
  let tolerance :=
    match tolerance with
    | Some t => if truthy t then t else Fin 1
    | None => Fin 1
    end in
  (Math_abs (a - b) <= tolerance)%js.

(* ================================================================= *)
(** ** [calculateSWP] in binary64

    Whether a plan is indefinite, and how many whole months it lasts, are
    decided by a comparison and by [Math.ceil]: there a rounding error of
    one unit in the last place changes the result.  For these two questions
    [calculateSWP] is embedded a second time, on the binary64 numbers of the
    kernel: [/], [*], [+], [-], [<=] and [===] are the IEEE-754 operations
    that JavaScript uses, [Math.ceil], [Math.floor] and [%] are computed
    exactly from the mantissa and the exponent, and [Math.log], which
    ECMAScript leaves implementation-approximated, is a parameter. *)

Module SWP64.

Record Result : Type := mkResult {
  months : float;
  years : float;
  remainingMonths : float;
  totalWithdrawn : float;
  isIndefinite : bool
}.

End SWP64.

(** The double of a whole number between 0 and [2^63 - 1]. *)
Definition b64_of_Z (z : Z) : float := of_uint63 (Uint63.of_Z z).

(** [Math.floor] on a double [(-1)^s * m * 2^e]. *)
Definition b64_floor (x : float) : float :=
  match Prim2SF x with
  | S754_finite s m e =>
      if (0 <=? e)%Z then x
      else
        let q := Z.shiftr (Z.pos m) (- e) in
        let whole := (Z.shiftl q (- e) =? Z.pos m)%Z in
        if s then (- b64_of_Z (if whole then q else q + 1))%float
        else b64_of_Z q
  | _ => x
  end.

(** [Math.ceil] on a double. *)
Definition b64_ceil (x : float) : float := (- b64_floor (- x))%float.

(** The remainder operator [%] on doubles; the result has the sign of the
    dividend and is exact. *)
Definition b64_rem (x y : float) : float :=
  match Prim2SF x, Prim2SF y with
  | S754_nan, _ | _, S754_nan => nan
  | S754_infinity _, _ => nan
  | _, S754_zero _ => nan
  | S754_zero _, _ => x
  | S754_finite _ _ _, S754_infinity _ => x
  | S754_finite sx mx ex, S754_finite _ my ey =>
      let e := Z.min ex ey in
      let X := Z.shiftl (Z.pos mx) (ex - e) in
      let Y := Z.shiftl (Z.pos my) (ey - e) in
      let r := Z.ldexp (b64_of_Z (X mod Y)) e in
      if sx then (- r)%float else r
  end.

(** The real number that a finite double stands for. *)
Definition b64_to_R (x : float) : option R :=
  match Prim2SF x with
  | S754_zero _ => Some 0
  | S754_finite s m e =>
      Some ((if s then -1 else 1) * IZR (Z.pos m) * powerRZ 2 e)
  | S754_infinity _ | S754_nan => None
  end.

Definition calculateSWP_b64 (Math_log : float -> float)
    (corpus monthlyWithdrawal annualRate : float) : SWP64.Result :=
  let r := (annualRate / 100 / 12)%float in
  if (monthlyWithdrawal <=? corpus * r)%float then
    SWP64.mkResult 0 0 0 0 true
  else
    let n :=
      if (r =? 0)%float then (corpus / monthlyWithdrawal)%float
      else (- Math_log (1 - (corpus * r) / monthlyWithdrawal)
            / Math_log (1 + r))%float in
    let months := b64_ceil n in
    let years := b64_floor (months / 12)%float in
    let remainingMonths := b64_rem months 12 in
    let totalWithdrawn := (monthlyWithdrawal * months)%float in
    SWP64.mkResult months years remainingMonths totalWithdrawn false.

(* ================================================================= *)
(** ** Lemmas on the integer parts *)

Lemma Rfloor_bounds (x : R) : IZR (Rfloor x) <= x < IZR (Rfloor x) + 1.
Proof.
  unfold Rfloor. rewrite minus_IZR.
  destruct (archimed x) as [Hgt Hle]. lra.
Qed.

Lemma Rfloor_spec (z : Z) (x : R) : IZR z <= x < IZR z + 1 -> Rfloor x = z.
Proof.
  intros [Hlo Hhi]. unfold Rfloor.
  rewrite <- (tech_up x (z + 1)); [lia | rewrite plus_IZR; lra ..].
Qed.

Lemma Rfloor_IZR (z : Z) : Rfloor (IZR z) = z.
Proof. apply Rfloor_spec. lra. Qed.

Lemma Rceil_bounds (x : R) : IZR (Rceil x) - 1 < x <= IZR (Rceil x).
Proof.
  unfold Rceil. rewrite opp_IZR.
  destruct (Rfloor_bounds (- x)). lra.
Qed.

Lemma Rceil_spec (z : Z) (x : R) : IZR z - 1 < x <= IZR z -> Rceil x = z.
Proof.
  intros [Hlo Hhi]. unfold Rceil.
  rewrite (Rfloor_spec (- z) (- x)); [lia | rewrite opp_IZR; lra].
Qed.

Lemma Rceil_IZR (z : Z) : Rceil (IZR z) = z.
Proof. apply Rceil_spec. lra. Qed.

Lemma Rround_IZR (z : Z) : Rround (IZR z) = z.
Proof. apply Rfloor_spec. lra. Qed.

Lemma Rround_nonneg (x : R) : 0 <= x -> (0 <= Rround x)%Z.
Proof.
  intros Hx. unfold Rround.
  destruct (Rfloor_bounds (x + / 2)) as [_ Hhi].
  apply Z.lt_succ_r, lt_IZR. rewrite succ_IZR. lra.
Qed.

(* ================================================================= *)
(** ** Lemmas on the operators at finite values *)

(** Case analysis on the comparisons of reals that a goal tests, closing the
    branches that linear arithmetic refutes. *)
Ltac R_cases :=
  repeat match goal with
  | |- context [Req_dec_T ?a ?b] =>
      destruct (Req_dec_T a b); try (exfalso; lra)
  | |- context [Rlt_dec ?a ?b] =>
      destruct (Rlt_dec a b); try (exfalso; lra)
  | |- context [Rle_dec ?a ?b] =>
      destruct (Rle_dec a b); try (exfalso; lra)
  end.

Lemma js_div_fin (x y : R) : y <> 0 -> (Fin x / Fin y)%js = Fin (x / y).
Proof.
  intros Hy. simpl.
  destruct (Req_dec_T y 0); [contradiction | reflexivity].
Qed.

Lemma js_div_zero_zero : (Fin 0 / Fin 0)%js = NaN.
Proof. simpl. R_cases. reflexivity. Qed.

Lemma monthly_rate (a : R) : (Fin a / Fin 100 / Fin 12)%js = Fin (a / 100 / 12).
Proof. rewrite !js_div_fin by lra. reflexivity. Qed.

Lemma annual_rate (a : R) : (Fin a / Fin 100)%js = Fin (a / 100).
Proof. rewrite js_div_fin by lra. reflexivity. Qed.

Lemma js_le_fin (x y : R) : (Fin x <= Fin y)%js = true <-> x <= y.
Proof. simpl. destruct (Rle_dec x y); split; intros; auto; discriminate. Qed.

Lemma js_le_fin_false (x y : R) : (Fin x <= Fin y)%js = false <-> y < x.
Proof.
  simpl. destruct (Rle_dec x y); split; intros; auto; try discriminate; lra.
Qed.

Lemma js_lt_fin (x y : R) : (Fin x < Fin y)%js = true <-> x < y.
Proof. simpl. destruct (Rlt_dec x y); split; intros; auto; discriminate. Qed.

Lemma Rpower_one (y : R) : Rpower 1 y = 1.
Proof. unfold Rpower. rewrite ln_1, Rmult_0_r. apply exp_0. Qed.

Lemma Math_pow_pos (x y : R) :
  0 < x -> Math_pow (Fin x) (Fin y) = Fin (Rpower x y).
Proof.
  intros Hx. unfold Math_pow.
  destruct (Req_dec_T y 0) as [-> | Hy].
  - rewrite Rpower_O by assumption. reflexivity.
  - destruct (Rlt_dec 0 x); [reflexivity | contradiction].
Qed.

Lemma Math_pow_zero_base (y : R) : 0 < y -> Math_pow (Fin 0) (Fin y) = Fin 0.
Proof. intros Hy. unfold Math_pow. R_cases. reflexivity. Qed.

Lemma Math_min_fin (x y : R) : Math_min (Fin x) (Fin y) = Fin (Rmin x y).
Proof.
  unfold Math_min, js_le, Rmin.
  destruct (Rle_dec x y); reflexivity.
Qed.

(* ================================================================= *)
(** ** Periodic investment (SIP) *)

(** With a monthly rate different from zero (and above -100%), the result
    is the annuity-due closed form. *)
Lemma calculateSIP_closed_form (P rate years : R) :
  rate <> 0 -> 0 < 1 + rate / 100 / 12 ->
  let r := rate / 100 / 12 in
  let n := years * 12 in
  calculateSIP (Fin P) (Fin rate) (Fin years) =
    mkReturns (Fin (P * ((Rpower (1 + r) n - 1) / r) * (1 + r)))
              (Fin (P * n))
              (Fin (P * ((Rpower (1 + r) n - 1) / r) * (1 + r) - P * n)).
Proof.
  intros Hrate Hbase r n. unfold calculateSIP.
  rewrite monthly_rate. fold r. cbn [js_add js_mul]. fold n.
  rewrite Math_pow_pos by assumption. cbn [js_sub].
  rewrite js_div_fin by (unfold r; lra).
  reflexivity.
Qed.

(** C1 (the code departs from the claim).  The claim asks that at
    [annualRate = 0] the future value falls back to [P * n].  The code has no
    such branch: the monthly rate is [0], [Math.pow(1, n) - 1] is [0], the
    quotient [0 / 0] is [NaN], and so are the future value and the estimated
    returns, for every contribution and duration; only [totalInvested] is
    [P * n]. *)
Theorem calculateSIP_zero_rate_NaN (P years : R) :
  calculateSIP (Fin P) (Fin 0) (Fin years) =
    mkReturns NaN (Fin (P * (years * 12))) NaN.
Proof.
  unfold calculateSIP. rewrite monthly_rate.
  replace (0 / 100 / 12) with 0 by lra.
  cbn [js_add js_mul]. replace (1 + 0) with 1 by lra.
  rewrite Math_pow_pos by lra. rewrite Rpower_one.
  cbn [js_sub]. replace (1 - 1) with 0 by lra.
  rewrite js_div_zero_zero. reflexivity.
Qed.

(* ================================================================= *)
(** ** The loops of the simulations *)

Lemma fold_left_seq_S {A : Type} (f : A -> nat -> A) (k : nat) (a : A) :
  fold_left f (seq 1 (S k)) a = f (fold_left f (seq 1 k) a) (S k).
Proof. rewrite seq_S, fold_left_app. reflexivity. Qed.

Lemma loop_trips_fin (y : R) :
  1 <= y -> exists k, loop_trips (Fin y) = Some (S k).
Proof.
  intros Hy. unfold loop_trips.
  assert (Hz : (1 <= Rfloor y)%Z).
  { destruct (Rfloor_bounds y) as [_ Hhi].
    apply Z.lt_succ_r, lt_IZR. rewrite succ_IZR. lra. }
  exists (Z.to_nat (Rfloor y - 1)). f_equal. lia.
Qed.

Lemma loop_trips_of_nat (k : nat) : loop_trips (of_nat k) = Some k.
Proof.
  unfold loop_trips, of_nat. rewrite INR_IZR_INZ, Rfloor_IZR.
  f_equal. lia.
Qed.

Lemma topup_loop_S (P r topUpRate : number) (k : nat) :
  topup_loop P r topUpRate (S k) =
    topup_year P r topUpRate (topup_loop P r topUpRate k) (S k).
Proof. apply fold_left_seq_S. Qed.

Lemma topup_year_last (P r topUpRate : number) (st : TopUpLoop.State)
    (y : nat) :
  let st' := topup_year P r topUpRate st y in
  exists e,
    TopUpLoop.yearlyBreakdown st' = TopUpLoop.yearlyBreakdown st ++ [e] /\
    TopUp.corpusAtEndOfYear e = TopUpLoop.corpus st'.
Proof.
  unfold topup_year. cbv zeta.
  destruct (Nat.iter 12 _ _) as [corpus yearlyInvested].
  eexists. split; reflexivity.
Qed.

Lemma stp_loop_S (lumpSum monthlyTransfer dr er : number) (k : nat) :
  stp_loop lumpSum monthlyTransfer dr er (S k) =
    stp_month monthlyTransfer dr er
      (stp_loop lumpSum monthlyTransfer dr er k) (S k).
Proof. apply fold_left_seq_S. Qed.

Lemma stp_month_last (monthlyTransfer dr er : number) (st : STPLoop.State)
    (m : nat) :
  let st' := stp_month monthlyTransfer dr er st m in
  exists e,
    STPLoop.breakdown st' = STPLoop.breakdown st ++ [e] /\
    STPMonth.month e = of_nat m /\
    STPMonth.debtCorpus e = Math_round (STPLoop.debtCorpus st') /\
    STPMonth.equityCorpus e = Math_round (STPLoop.equityCorpus st') /\
    STPMonth.totalCorpus e =
      Math_round (STPLoop.debtCorpus st' + STPLoop.equityCorpus st')%js.
Proof. eexists. repeat split; reflexivity. Qed.

Lemma stp_loop_length (lumpSum monthlyTransfer dr er : number) (k : nat) :
  List.length (STPLoop.breakdown (stp_loop lumpSum monthlyTransfer dr er k))
  = k.
Proof.
  induction k as [| k IH]; [reflexivity |].
  rewrite stp_loop_S. cbn [stp_month STPLoop.breakdown].
  rewrite length_app, IH. simpl. lia.
Qed.

Lemma calculateSIP_at_zero_rate (P years : R) :
  calculateSIP (Fin P) (Fin 0) (Fin years) =
    mkReturns NaN (Fin (P * (years * 12))) NaN.
Proof.
  unfold calculateSIP. rewrite monthly_rate.
  replace (0 / 100 / 12) with 0 by lra.
  cbn [js_add js_mul]. replace (1 + 0) with 1 by lra.
  rewrite Math_pow_pos by lra. rewrite Rpower_one.
  cbn [js_sub]. replace (1 - 1) with 0 by lra.
  rewrite js_div_zero_zero. reflexivity.
Qed.

(** C6 (the code departs from the claim).  The claim holds for
    [calculateSIP] at a zero rate in no numeric sense: there
    [estimatedReturns] and [futureValue - totalInvested] are both [NaN],
    the defect of C1, so [===] between them is false and [approxEqual]
    rejects them at every tolerance, for every contribution and duration. *)
Theorem estimatedReturns_not_equal_at_zero_rate (P years : R)
    (tolerance : option number) :
  let res := calculateSIP (Fin P) (Fin 0) (Fin years) in
  estimatedReturns res = NaN /\
  (futureValue res - totalInvested res)%js = NaN /\
  (estimatedReturns res === futureValue res - totalInvested res)%js = false /\
  approxEqual (estimatedReturns res)
    (futureValue res - totalInvested res)%js tolerance = false.
Proof.
  cbv zeta. rewrite calculateSIP_at_zero_rate.
  cbn [estimatedReturns futureValue totalInvested js_sub js_eq].
  split; [reflexivity | split; [reflexivity | split; [reflexivity |]]].
  unfold approxEqual. reflexivity.
Qed.

(** C2 (as amended).  For a duration of at least one period both simulations
    return, and the last element of the breakdown describes the final state:
    in [calculateTopUpSIP] its [corpusAtEndOfYear] is the returned
    [futureValue]; in [calculateSTP] the returned [totalCorpus] is the
    unrounded [debtCorpus + equityCorpus] and the last element's
    [totalCorpus] is [Math.round] of it. *)
Theorem simulation_last_entry
    (P annualRate topUpRate : number)
    (lumpSum monthlyTransfer debtRate equityRate : number)
    (years months : R) :
  1 <= years -> 1 <= months ->
  (exists res init e,
      calculateTopUpSIP P annualRate (Fin years) topUpRate = Some res /\
      TopUp.yearlyBreakdown res = init ++ [e] /\
      TopUp.corpusAtEndOfYear e = TopUp.futureValue res) /\
  (exists res init e,
      calculateSTP lumpSum monthlyTransfer debtRate equityRate (Fin months)
        = Some res /\
      STP.breakdown res = init ++ [e] /\
      STP.totalCorpus res = (STP.debtCorpus res + STP.equityCorpus res)%js /\
      STPMonth.totalCorpus e = Math_round (STP.totalCorpus res)).
Proof.
  intros Hy Hm. split.
  - destruct (loop_trips_fin years Hy) as [k Hk].
    unfold calculateTopUpSIP. rewrite Hk, topup_loop_S.
    set (r := (annualRate / Fin 100 / Fin 12)%js).
    destruct (topup_year_last P r topUpRate (topup_loop P r topUpRate k) (S k))
      as (e & Hentries & Hcorpus).
    eexists. exists (TopUpLoop.yearlyBreakdown (topup_loop P r topUpRate k)), e.
    split; [reflexivity |]. cbn [TopUp.yearlyBreakdown TopUp.futureValue].
    split; assumption.
  - destruct (loop_trips_fin months Hm) as [k Hk].
    unfold calculateSTP. rewrite Hk, stp_loop_S.
    set (dr := (debtRate / Fin 100 / Fin 12)%js).
    set (er := (equityRate / Fin 100 / Fin 12)%js).
    set (st := stp_loop lumpSum monthlyTransfer dr er k).
    destruct (stp_month_last monthlyTransfer dr er st (S k))
      as (e & Hentries & _ & _ & _ & Htotal).
    eexists. exists (STPLoop.breakdown st), e.
    split; [reflexivity |].
    cbn [STP.breakdown STP.totalCorpus STP.debtCorpus STP.equityCorpus].
    repeat split; assumption.
Qed.

Lemma simulation_last_entry_witness :
  (exists res init e,
      calculateTopUpSIP (Fin 5000) (Fin 12) (Fin 10) (Fin 10) = Some res /\
      TopUp.yearlyBreakdown res = init ++ [e] /\
      TopUp.corpusAtEndOfYear e = TopUp.futureValue res) /\
  (exists res init e,
      calculateSTP (Fin 500000) (Fin 25000) (Fin 7) (Fin 14) (Fin 24)
        = Some res /\
      STP.breakdown res = init ++ [e] /\
      STP.totalCorpus res = (STP.debtCorpus res + STP.equityCorpus res)%js /\
      STPMonth.totalCorpus e = Math_round (STP.totalCorpus res)).
Proof.
  apply (simulation_last_entry (Fin 5000) (Fin 12) (Fin 10)
           (Fin 500000) (Fin 25000) (Fin 7) (Fin 14) 10 24); lra.
Defined.

(** C2 as stated fails for [calculateSTP]: with a lump sum of 1001, a
    monthly transfer of 100, a debt rate of 6%, an equity rate of 12% and one
    month, the returned [totalCorpus] is 1007.005 while the last (and only)
    breakdown element has [totalCorpus] 1007. *)
Lemma calculateSTP_last_total_differs :
  exists res init e,
    calculateSTP (Fin 1001) (Fin 100) (Fin 6) (Fin 12) (Fin 1) = Some res /\
    STP.breakdown res = init ++ [e] /\
    STPMonth.totalCorpus e = Fin 1007 /\
    STP.totalCorpus res = Fin 1007.005 /\
    STPMonth.totalCorpus e <> STP.totalCorpus res.
Proof.
  assert (Hk : loop_trips (Fin 1) = Some 1%nat).
  { unfold loop_trips. rewrite (Rfloor_IZR 1). reflexivity. }
  unfold calculateSTP. rewrite Hk, !monthly_rate.
  unfold stp_loop.
  cbn [seq fold_left stp_month STPLoop.debtCorpus STPLoop.equityCorpus
       STPLoop.totalTransferred STPLoop.breakdown js_add js_mul].
  rewrite Math_min_fin. cbn [js_sub js_add js_mul Math_round app].
  rewrite Rmin_left by lra.
  eexists. exists [].
  eexists. split; [reflexivity |].
  cbn [STP.breakdown STP.totalCorpus STPMonth.totalCorpus app].
  split; [reflexivity |].
  assert (Hround :
    Rround (1001 * (1 + 6 / 100 / 12) - 100
            + (0 + 100) * (1 + 12 / 100 / 12)) = 1007%Z).
  { apply Rfloor_spec. lra. }
  rewrite Hround.
  split; [reflexivity |]. split; [f_equal; lra |].
  intros Heq. injection Heq as Heq. lra.
Qed.

(* ================================================================= *)
(** ** Systematic transfer plan *)

(** One month of the loop on finite amounts. *)
Lemma stp_month_fin (T dr er d e t : R) (l : list STPMonth.Entry) (m : nat) :
  let grown := d * (1 + dr) in
  let transfer := Rmin T grown in
  stp_month (Fin T) (Fin dr) (Fin er)
    (STPLoop.mkState (Fin d) (Fin e) (Fin t) l) m =
    STPLoop.mkState (Fin (grown - transfer))
      (Fin ((e + transfer) * (1 + er)))
      (Fin (t + transfer))
      (l ++ [STPMonth.mkEntry (of_nat m)
               (Fin (IZR (Rround (grown - transfer))))
               (Fin (IZR (Rround ((e + transfer) * (1 + er)))))
               (Fin (IZR (Rround (grown - transfer
                                  + (e + transfer) * (1 + er)))))]).
Proof.
  intros grown transfer. unfold stp_month.
  cbn [STPLoop.debtCorpus STPLoop.equityCorpus STPLoop.totalTransferred
       STPLoop.breakdown js_add js_mul].
  rewrite Math_min_fin. reflexivity.
Qed.

(** The amounts stay finite and non-negative along the loop. *)
Lemma stp_loop_fin (L T dr er : R) (k : nat) :
  0 <= L -> 0 <= T -> 0 <= dr -> 0 <= er ->
  exists d e t l,
    stp_loop (Fin L) (Fin T) (Fin dr) (Fin er) k =
      STPLoop.mkState (Fin d) (Fin e) (Fin t) l /\
    0 <= d /\ 0 <= e /\ 0 <= t.
Proof.
  intros HL HT Hdr Her. induction k as [| k IH].
  - exists L, 0, 0, []. repeat split; [assumption | lra ..].
  - destruct IH as (d & e & t & l & Hst & Hd & He & Ht).
    rewrite stp_loop_S, Hst, stp_month_fin.
    assert (Hgrown : 0 <= d * (1 + dr)) by (apply Rmult_le_pos; lra).
    assert (Hmin : 0 <= Rmin T (d * (1 + dr)) <= d * (1 + dr)).
    { split; [apply Rmin_glb; assumption | apply Rmin_r]. }
    do 4 eexists. split; [reflexivity |].
    repeat split; [lra | apply Rmult_le_pos; lra | lra].
Qed.

(** The element of index [m] of the breakdown is the rounded state after the
    month [m + 1]. *)
Lemma stp_loop_entry (lumpSum monthlyTransfer dr er : number) (k m : nat) :
  (m < k)%nat ->
  let run := stp_loop lumpSum monthlyTransfer dr er in
  exists en,
    nth_error (STPLoop.breakdown (run k)) m = Some en /\
    STPMonth.month en = of_nat (S m) /\
    STPMonth.debtCorpus en = Math_round (STPLoop.debtCorpus (run (S m))) /\
    STPMonth.equityCorpus en = Math_round (STPLoop.equityCorpus (run (S m))) /\
    STPMonth.totalCorpus en =
      Math_round
        (STPLoop.debtCorpus (run (S m)) + STPLoop.equityCorpus (run (S m)))%js.
Proof.
  intros Hm run. subst run. induction k as [| k IH]; [lia |].
  destruct (stp_month_last monthlyTransfer dr er
              (stp_loop lumpSum monthlyTransfer dr er k) (S k))
    as (e & Hentries & Hfields).
  rewrite <- stp_loop_S in Hentries, Hfields.
  destruct (Nat.eq_dec m k) as [-> | Hne].
  - exists e. split; [| exact Hfields].
    rewrite Hentries, nth_error_app2 by (rewrite stp_loop_length; lia).
    rewrite stp_loop_length, Nat.sub_diag. reflexivity.
  - destruct IH as (en & Hnth & Hrest); [lia |].
    exists en. split; [| exact Hrest].
    rewrite Hentries, nth_error_app1 by (rewrite stp_loop_length; lia).
    exact Hnth.
Qed.

(** C7.  For non-negative lump sum, transfer and rates, [calculateSTP]
    returns the final state of the monthly loop and one breakdown element
    per month, the rounded state after that month.  In every month the debt
    corpus first grows by the factor [1 + debtRate/1200]; the transfer is the
    smaller of [monthlyTransfer] and the grown debt corpus; it is subtracted
    from the debt corpus and added to the equity corpus, which then grows by
    [1 + equityRate/1200].  The transfer never exceeds the grown debt corpus,
    so the debt corpus is non-negative after every month, in the loop and in
    the rounded breakdown. *)
Theorem calculateSTP_transfer_capped (L T dRate eRate : R) (k : nat) :
  0 <= L -> 0 <= T -> 0 <= dRate -> 0 <= eRate ->
  let run :=
    stp_loop (Fin L) (Fin T) (Fin (dRate / 100 / 12))
      (Fin (eRate / 100 / 12)) in
  (exists res,
      calculateSTP (Fin L) (Fin T) (Fin dRate) (Fin eRate) (of_nat k)
        = Some res /\
      STP.debtCorpus res = STPLoop.debtCorpus (run k) /\
      STP.equityCorpus res = STPLoop.equityCorpus (run k) /\
      STP.totalTransferred res = STPLoop.totalTransferred (run k) /\
      forall m, (m < k)%nat ->
        exists en z,
          nth_error (STP.breakdown res) m = Some en /\
          STPMonth.month en = of_nat (S m) /\
          STPMonth.debtCorpus en =
            Math_round (STPLoop.debtCorpus (run (S m))) /\
          STPMonth.equityCorpus en =
            Math_round (STPLoop.equityCorpus (run (S m))) /\
          STPMonth.debtCorpus en = Fin (IZR z) /\ (0 <= z)%Z) /\
  (forall m : nat,
      exists d e t,
        STPLoop.debtCorpus (run m) = Fin d /\
        STPLoop.equityCorpus (run m) = Fin e /\
        STPLoop.totalTransferred (run m) = Fin t /\
        0 <= d /\
        let grown := d * (1 + dRate / 1200) in
        let transfer := Rmin T grown in
        STPLoop.debtCorpus (run (S m)) = Fin (grown - transfer) /\
        STPLoop.equityCorpus (run (S m)) =
          Fin ((e + transfer) * (1 + eRate / 1200)) /\
        STPLoop.totalTransferred (run (S m)) = Fin (t + transfer) /\
        0 <= transfer <= T /\
        0 <= grown - transfer).
Proof.
  intros HL HT Hd He run.
  assert (Hdr : 0 <= dRate / 100 / 12) by lra.
  assert (Her : 0 <= eRate / 100 / 12) by lra.
  split.
  - unfold calculateSTP. rewrite loop_trips_of_nat, !monthly_rate. fold run.
    eexists. split; [reflexivity |].
    cbn [STP.debtCorpus STP.equityCorpus STP.totalTransferred STP.breakdown].
    repeat split.
    intros m Hm.
    destruct (stp_loop_entry (Fin L) (Fin T) (Fin (dRate / 100 / 12))
                (Fin (eRate / 100 / 12)) k m Hm)
      as (en & Hnth & Hmonth & Hdebt & Hequity & _).
    destruct (stp_loop_fin L T _ _ (S m) HL HT Hdr Her)
      as (d & e & t & l & Hst & Hd0 & _).
    exists en, (Rround d). unfold run in *.
    repeat split; try assumption.
    + rewrite Hdebt, Hst. reflexivity.
    + apply Rround_nonneg. exact Hd0.
  - intros m.
    destruct (stp_loop_fin L T _ _ m HL HT Hdr Her)
      as (d & e & t & l & Hst & Hd0 & He0 & Ht0).
    exists d, e, t. subst run. cbv zeta.
    rewrite stp_loop_S, Hst, stp_month_fin.
    cbn [STPLoop.debtCorpus STPLoop.equityCorpus STPLoop.totalTransferred].
    replace (dRate / 1200) with (dRate / 100 / 12) by lra.
    replace (eRate / 1200) with (eRate / 100 / 12) by lra.
    assert (Hgrown : 0 <= d * (1 + dRate / 100 / 12))
      by (apply Rmult_le_pos; lra).
    pose proof (Rmin_l T (d * (1 + dRate / 100 / 12))) as Hl.
    pose proof (Rmin_r T (d * (1 + dRate / 100 / 12))) as Hr.
    pose proof (Rmin_glb _ _ _ HT Hgrown) as Hglb.
    repeat split; try assumption; lra.
Qed.

Lemma calculateSTP_transfer_capped_witness :
  let run :=
    stp_loop (Fin 100000) (Fin 200000) (Fin (7 / 100 / 12))
      (Fin (14 / 100 / 12)) in
  (exists res,
      calculateSTP (Fin 100000) (Fin 200000) (Fin 7) (Fin 14) (of_nat 3)
        = Some res /\
      STP.debtCorpus res = STPLoop.debtCorpus (run 3%nat) /\
      STP.equityCorpus res = STPLoop.equityCorpus (run 3%nat) /\
      STP.totalTransferred res = STPLoop.totalTransferred (run 3%nat) /\
      forall m, (m < 3)%nat ->
        exists en z,
          nth_error (STP.breakdown res) m = Some en /\
          STPMonth.month en = of_nat (S m) /\
          STPMonth.debtCorpus en =
            Math_round (STPLoop.debtCorpus (run (S m))) /\
          STPMonth.equityCorpus en =
            Math_round (STPLoop.equityCorpus (run (S m))) /\
          STPMonth.debtCorpus en = Fin (IZR z) /\ (0 <= z)%Z) /\
  (forall m : nat,
      exists d e t,
        STPLoop.debtCorpus (run m) = Fin d /\
        STPLoop.equityCorpus (run m) = Fin e /\
        STPLoop.totalTransferred (run m) = Fin t /\
        0 <= d /\
        let grown := d * (1 + 7 / 1200) in
        let transfer := Rmin 200000 grown in
        STPLoop.debtCorpus (run (S m)) = Fin (grown - transfer) /\
        STPLoop.equityCorpus (run (S m)) =
          Fin ((e + transfer) * (1 + 14 / 1200)) /\
        STPLoop.totalTransferred (run (S m)) = Fin (t + transfer) /\
        0 <= transfer <= 200000 /\
        0 <= grown - transfer).
Proof.
  apply (calculateSTP_transfer_capped 100000 200000 7 14 3); lra.
Defined.

(* ================================================================= *)
(** ** Systematic withdrawal plan *)

Lemma Rfloor_div (m d : Z) :
  (0 < d)%Z -> Rfloor (IZR m / IZR d) = (m / d)%Z.
Proof.
  intros Hd. apply Rfloor_spec.
  assert (HdR : 0 < IZR d) by (apply IZR_lt; assumption).
  pose proof (Z.div_mod m d ltac:(lia)) as Hdm.
  pose proof (Z.mod_pos_bound m d Hd) as [Hlo Hhi].
  apply IZR_le in Hlo. apply IZR_lt in Hhi.
  assert (HmR : IZR m = IZR d * IZR (m / d) + IZR (m mod d)).
  { rewrite <- mult_IZR, <- plus_IZR. f_equal. exact Hdm. }
  replace (IZR m / IZR d) with (IZR (m / d) + IZR (m mod d) / IZR d)
    by (rewrite HmR; field; lra).
  assert (0 <= IZR (m mod d) / IZR d < 1).
  { split.
    - apply Rmult_le_pos; [assumption |].
      left. apply Rinv_0_lt_compat. assumption.
    - apply Rmult_lt_reg_r with (IZR d); [assumption |].
      unfold Rdiv. rewrite Rmult_assoc, Rinv_l by lra. lra. }
  lra.
Qed.

(** [months % 12] for a non-negative whole number of months. *)
Lemma js_rem_12 (m : Z) :
  (0 <= m)%Z -> (Fin (IZR m) mod Fin 12)%js = Fin (IZR (m mod 12)).
Proof.
  intros Hm. unfold js_rem.
  destruct (Req_dec_T 12 0) as [H12 | _]; [exfalso; lra |].
  f_equal. unfold Rtrunc.
  assert (Hq : 0 <= IZR m / 12).
  { apply IZR_le in Hm. apply Rmult_le_pos; lra. }
  destruct (Rle_dec 0 (IZR m / 12)); [| contradiction].
  rewrite (Rfloor_div m 12) by lia.
  pose proof (Z.div_mod m 12 ltac:(lia)) as Hdm.
  rewrite Hdm at 1. rewrite plus_IZR, mult_IZR. lra.
Qed.

(** The specified duration is positive whenever the withdrawal exceeds the
    monthly interest. *)
Lemma swp_duration_spec_pos (C W r : R) :
  0 < C -> 0 < W -> 0 <= r -> C * r < W -> 0 < swp_duration_spec C W r.
Proof.
  intros HC HW Hr Hlt. unfold swp_duration_spec.
  destruct (Req_dec_T r 0) as [-> | Hr0].
  - apply Rdiv_lt_0_compat; assumption.
  - assert (Hfrac : 0 < C * r / W < 1).
    { split.
      - apply Rdiv_lt_0_compat; [apply Rmult_lt_0_compat; lra | assumption].
      - apply Rmult_lt_reg_r with W; [assumption |].
        unfold Rdiv. rewrite Rmult_assoc, Rinv_l by lra. lra. }
    assert (Hnum : ln (1 - C * r / W) < 0).
    { rewrite <- ln_1. apply ln_increasing; lra. }
    assert (Hden : 0 < ln (1 + r)).
    { rewrite <- ln_1. apply ln_increasing; lra. }
    apply Rdiv_lt_0_compat; lra.
Qed.

(** The finite branch of [calculateSWP], in closed form. *)
Lemma calculateSWP_finite_branch (C W rate : R) :
  0 < C -> 0 < W -> 0 <= rate -> C * (rate / 1200) < W ->
  let m := Rceil (swp_duration_spec C W (rate / 1200)) in
  (1 <= m)%Z /\
  calculateSWP (Fin C) (Fin W) (Fin rate) =
    SWP.mkResult (Fin (IZR m)) (Fin (IZR (m / 12))) (Fin (IZR (m mod 12)))
      (Fin (W * IZR m)) false.
Proof.
  intros HC HW Hrate Hlt m.
  assert (Hr : rate / 100 / 12 = rate / 1200) by lra.
  assert (Hpos := swp_duration_spec_pos C W (rate / 1200) HC HW ltac:(lra) Hlt).
  assert (Hm : (1 <= m)%Z).
  { destruct (Rceil_bounds (swp_duration_spec C W (rate / 1200))) as [_ Hhi].
    fold m in Hhi. apply Z.lt_succ_r, Z.lt_pred_lt_succ. simpl.
    apply lt_IZR. lra. }
  split; [exact Hm |].
  unfold calculateSWP. rewrite monthly_rate, Hr.
  cbn [js_mul].
  assert (Hle : (Fin W <= Fin (C * (rate / 1200)))%js = false)
    by (apply js_le_fin_false; assumption).
  rewrite Hle.
  assert (Hn :
    (if (Fin (rate / 1200) === Fin 0)%js then (Fin C / Fin W)%js
     else (- Math_log (Fin 1 - Fin (C * (rate / 1200)) / Fin W)
           / Math_log (Fin 1 + Fin (rate / 1200)))%js)
    = Fin (swp_duration_spec C W (rate / 1200))).
  { unfold swp_duration_spec, js_eq.
    destruct (Req_dec_T (rate / 1200) 0) as [Hz | Hnz].
    - apply js_div_fin. lra.
    - rewrite js_div_fin by lra. cbn [js_sub js_add].
      assert (Hfrac : C * (rate / 1200) / W < 1).
      { apply Rmult_lt_reg_r with W; [assumption |].
        unfold Rdiv at 1. rewrite Rmult_assoc, Rinv_l by lra. lra. }
      unfold Math_log.
      destruct (Rlt_dec 0 (1 - C * (rate / 1200) / W)); [| exfalso; lra].
      destruct (Rlt_dec 0 (1 + rate / 1200)); [| exfalso; lra].
      cbn [js_neg]. apply js_div_fin.
      apply ln_neq_0; lra. }
  rewrite Hn. cbn [Math_ceil]. fold m.
  rewrite js_div_fin by lra. cbn [Math_floor js_mul].
  rewrite (Rfloor_div m 12) by lia.
  rewrite js_rem_12 by lia.
  reflexivity.
Qed.

(** The exact operations of the binary64 embedding on sample values: whole
    and fractional, negative, signed zeros, infinities and [NaN]. *)
Example b64_operations_examples :
  b64_ceil 0x1.000000000004bp+0 = 2%float /\
  b64_ceil 3 = 3%float /\
  b64_ceil 2958.25 = 2959%float /\
  b64_ceil (-0.5) = (-0)%float /\
  b64_ceil (-1.5) = (-1)%float /\
  b64_ceil 0 = 0%float /\
  b64_ceil infinity = infinity /\
  b64_ceil nan = nan /\
  b64_floor 13.75 = 13%float /\
  b64_floor (-13.75) = (-14)%float /\
  b64_floor (166 / 12) = 13%float /\
  b64_floor 0.5 = 0%float /\
  b64_rem 166 12 = 10%float /\
  b64_rem 5.5 2 = 1.5%float /\
  b64_rem (-7) 3 = (-1)%float /\
  b64_rem 7 (-3) = 1%float /\
  b64_rem (-5) 5 = (-0)%float /\
  b64_rem 3 infinity = 3%float /\
  b64_rem 3 0 = nan /\
  b64_rem infinity 3 = nan.
Proof. vm_compute. repeat split. Qed.



Lemma b64_to_R_finite (x : float) (s : bool) (m : positive) (e : Z) :
  Prim2SF x = S754_finite s m e ->
  b64_to_R x = Some ((if s then -1 else 1) * IZR (Z.pos m) * powerRZ 2 e).
Proof. intros H. unfold b64_to_R. rewrite H. reflexivity. Qed.


(** The indefinite branch of [calculateSWP]. *)
Lemma calculateSWP_indefinite_branch (C W rate : R) :
  W <= C * (rate / 1200) ->
  calculateSWP (Fin C) (Fin W) (Fin rate) =
    SWP.mkResult (Fin 0) (Fin 0) (Fin 0) (Fin 0) true.
Proof.
  intros Hle.
  assert (Hr : rate / 100 / 12 = rate / 1200) by lra.
  unfold calculateSWP. rewrite monthly_rate, Hr. cbn [js_mul].
  assert (Htest : (Fin W <= Fin (C * (rate / 1200)))%js = true)
    by (apply js_le_fin; assumption).
  rewrite Htest. reflexivity.
Qed.

(** C4 (the code departs from the claim).  The code classifies by its own
    test in binary64, [monthlyWithdrawal <= corpus * (annualRate / 100 /
    12)], and never raises.  Where the withdrawal equals the monthly
    interest the rounding of that product decides: for a corpus of
    1,000,000 at 15% the interest is exactly 12,500, the claim (and the
    function's own comment, interest [>=] withdrawal) makes a withdrawal of
    12,500 indefinite, but the code computes [r = 0.012499999999999999] and
    [corpus * r = 12499.999999999998 < 12500] and returns a finite plan;
    for 5,000,000 at 12% with 50,000, the equal case that the test suite
    checks, the product is not below 50,000 and the result is indefinite. *)
Theorem calculateSWP_b64_interest_equals_withdrawal
    (Math_log : float -> float) :
  b64_to_R 1000000 = Some 1000000 /\
  b64_to_R 12500 = Some 12500 /\
  b64_to_R 15 = Some 15 /\
  12500 <= 1000000 * (15 / 1200) /\
  (15 / 100 / 12)%float = 0x1.9999999999999p-7%float /\
  (1000000 * (15 / 100 / 12))%float = 0x1.869ffffffffffp+13%float /\
  SWP64.isIndefinite (calculateSWP_b64 Math_log 1000000 12500 15) = false /\
  calculateSWP_b64 Math_log 5000000 50000 12 = SWP64.mkResult 0 0 0 0 true /\
  forall corpus monthlyWithdrawal annualRate,
    SWP64.isIndefinite
      (calculateSWP_b64 Math_log corpus monthlyWithdrawal annualRate)
    = (monthlyWithdrawal <=? corpus * (annualRate / 100 / 12))%float.
Proof.
  split; [| split; [| split; [| split; [| split; [| split; [| split;
    [| split]]]]]]].
  - rewrite (b64_to_R_finite 1000000 false 8589934592000000 (-33))
      by (vm_compute; reflexivity).
    f_equal. simpl. lra.
  - rewrite (b64_to_R_finite 12500 false 6871947673600000 (-39))
      by (vm_compute; reflexivity).
    f_equal. simpl. lra.
  - rewrite (b64_to_R_finite 15 false 8444249301319680 (-49))
      by (vm_compute; reflexivity).
    f_equal. simpl. lra.
  - lra.
  - vm_compute. reflexivity.
  - vm_compute. reflexivity.
  - vm_compute. reflexivity.
  - vm_compute. reflexivity.
  - intros corpus w rate. unfold calculateSWP_b64.
    destruct (w <=? corpus * (rate / 100 / 12))%float; reflexivity.
Qed.

(** C10.  In the finite branch the duration is at least one month and is
    split as [months = 12 * years + remainingMonths] with
    [0 <= remainingMonths <= 11]; and whenever [months] is zero the result is
    the indefinite one. *)
Theorem calculateSWP_decomposition (C W rate : R) :
  0 < C -> 0 < W -> 0 <= rate ->
  let res := calculateSWP (Fin C) (Fin W) (Fin rate) in
  (C * (rate / 1200) < W ->
     exists m y rm : Z,
       SWP.months res = Fin (IZR m) /\
       SWP.years res = Fin (IZR y) /\
       SWP.remainingMonths res = Fin (IZR rm) /\
       SWP.isIndefinite res = false /\
       (1 <= m)%Z /\ (m = 12 * y + rm)%Z /\ (0 <= rm <= 11)%Z) /\
  (SWP.months res = Fin 0 -> SWP.isIndefinite res = true).
Proof.
  intros HC HW Hrate res.
  assert (Hfinite :
    C * (rate / 1200) < W ->
    exists m y rm : Z,
      SWP.months res = Fin (IZR m) /\
      SWP.years res = Fin (IZR y) /\
      SWP.remainingMonths res = Fin (IZR rm) /\
      SWP.isIndefinite res = false /\
      (1 <= m)%Z /\ (m = 12 * y + rm)%Z /\ (0 <= rm <= 11)%Z).
  { intros Hlt.
    destruct (calculateSWP_finite_branch C W rate HC HW Hrate Hlt)
      as [Hm Heq].
    set (m := Rceil (swp_duration_spec C W (rate / 1200))) in *.
    exists m, (m / 12)%Z, (m mod 12)%Z. subst res. rewrite Heq.
    cbn [SWP.months SWP.years SWP.remainingMonths SWP.isIndefinite].
    repeat split; try assumption.
    - apply Z.div_mod. lia.
    - apply Z.mod_pos_bound. lia.
    - pose proof (Z.mod_pos_bound m 12 ltac:(lia)). lia. }
  split; [exact Hfinite |].
  intros Hzero.
  destruct (Rlt_le_dec (C * (rate / 1200)) W) as [Hlt | Hle].
  - destruct (Hfinite Hlt) as (m & y & rm & Hmonths & _ & _ & _ & Hm & _).
    rewrite Hmonths in Hzero. injection Hzero as Hzero.
    apply eq_IZR in Hzero. lia.
  - subst res. rewrite (calculateSWP_indefinite_branch C W rate Hle).
    reflexivity.
Qed.

Lemma calculateSWP_decomposition_witness :
  let res := calculateSWP (Fin 2000000) (Fin 20000) (Fin 8) in
  (exists m y rm : Z,
      SWP.months res = Fin (IZR m) /\
      SWP.years res = Fin (IZR y) /\
      SWP.remainingMonths res = Fin (IZR rm) /\
      SWP.isIndefinite res = false /\
      (1 <= m)%Z /\ (m = 12 * y + rm)%Z /\ (0 <= rm <= 11)%Z) /\
  (SWP.months res = Fin 0 -> SWP.isIndefinite res = true).
Proof.
  destruct (calculateSWP_decomposition 2000000 20000 8) as [Hfinite Hzero];
    try lra.
  split; [apply Hfinite; lra | exact Hzero].
Defined.

(* ================================================================= *)
(** ** Lumpsum valuation and CAGR *)

Lemma calculateLumpsum_closed_form (P rate years : R) :
  0 < 1 + rate / 100 ->
  calculateLumpsum (Fin P) (Fin rate) (Fin years) =
    mkReturns (Fin (P * Rpower (1 + rate / 100) years)) (Fin P)
      (Fin (P * Rpower (1 + rate / 100) years - P)).
Proof.
  intros Hbase. unfold calculateLumpsum.
  rewrite annual_rate. cbn [js_add].
  rewrite Math_pow_pos by assumption. reflexivity.
Qed.

(** C5 (as amended).  For a principal [P > 0], a duration [y > 0] and a rate
    of at least -100%, the CAGR of the lumpsum future value is the rate
    again. *)
Theorem calculateCAGR_inverts_calculateLumpsum (P r y : R) :
  0 < P -> -100 <= r -> 0 < y ->
  calculateCAGR (Fin P) (futureValue (calculateLumpsum (Fin P) (Fin r) (Fin y)))
    (Fin y) = Fin r.
Proof.
  intros HP Hr Hy.
  assert (Hinv : 0 < 1 / y) by (apply Rdiv_lt_0_compat; lra).
  destruct (Req_dec_T r (-100)) as [-> | Hne].
  - unfold calculateLumpsum, calculateCAGR. rewrite annual_rate.
    cbn [js_add futureValue].
    replace (1 + -100 / 100) with 0 by lra.
    rewrite Math_pow_zero_base by assumption. cbn [js_mul].
    rewrite !js_div_fin by lra.
    replace (P * 0 / P) with 0 by (field; lra).
    rewrite Math_pow_zero_base by assumption.
    cbn [js_sub js_mul]. f_equal. lra.
  - assert (Hbase : 0 < 1 + r / 100) by lra.
    rewrite calculateLumpsum_closed_form by assumption.
    unfold calculateCAGR. cbn [futureValue].
    rewrite !js_div_fin by lra.
    replace (P * Rpower (1 + r / 100) y / P) with (Rpower (1 + r / 100) y)
      by (field; lra).
    rewrite Math_pow_pos by (unfold Rpower; apply exp_pos).
    rewrite Rpower_mult.
    replace (y * (1 / y)) with 1 by (field; lra).
    rewrite Rpower_1 by assumption.
    cbn [js_sub js_mul]. f_equal. lra.
Qed.

Lemma calculateCAGR_inverts_calculateLumpsum_witness :
  calculateCAGR (Fin 100000)
    (futureValue (calculateLumpsum (Fin 100000) (Fin 15) (Fin 10)))
    (Fin 10) = Fin 15.
Proof.
  apply (calculateCAGR_inverts_calculateLumpsum 100000 15 10); lra.
Defined.

(** C5 as stated, for every rate, fails below -100%: a lumpsum of 1000 at
    -300% over 2 years has the future value 4000, whose CAGR is 100, at
    distance 400 from the rate. *)
Lemma calculateCAGR_negative_rate_differs :
  calculateCAGR (Fin 1000)
    (futureValue (calculateLumpsum (Fin 1000) (Fin (-300)) (Fin 2)))
    (Fin 2) = Fin 100 /\
  Fin 100 <> Fin (-300) /\
  0.001 < Rabs (100 - -300).
Proof.
  split; [| split].
  - unfold calculateLumpsum, calculateCAGR. rewrite annual_rate.
    cbn [js_add futureValue].
    assert (Hpow : Math_pow (Fin (1 + -300 / 100)) (Fin 2) = Fin 4).
    { unfold Math_pow.
      destruct (Req_dec_T 2 0); [exfalso; lra |].
      destruct (Rlt_dec 0 (1 + -300 / 100)); [exfalso; lra |].
      destruct (Req_dec_T (1 + -300 / 100) 0); [exfalso; lra |].
      unfold is_integer. rewrite (Rfloor_IZR 2).
      destruct (Req_dec_T 2 2); [| contradiction].
      f_equal. simpl. lra. }
    rewrite Hpow. cbn [js_mul].
    rewrite !js_div_fin by lra.
    rewrite Math_pow_pos by lra.
    replace (1000 * 4 / 1000) with (2 * 2) by lra.
    replace (1 / 2) with (/ 2) by lra.
    rewrite Rpower_sqrt by lra.
    rewrite sqrt_square by lra.
    cbn [js_sub js_mul]. f_equal. lra.
  - intros Heq. injection Heq as Heq. lra.
  - rewrite Rabs_right; lra.
Qed.

(* ================================================================= *)
(** ** Monotonicity *)

Lemma Rpower_succ (x n : R) : 0 < x -> Rpower x (n + 1) = Rpower x n * x.
Proof. intros Hx. rewrite Rpower_plus, Rpower_1 by assumption. reflexivity. Qed.

Lemma Rpower_gt_1 (x n : R) : 1 < x -> 0 < n -> 1 < Rpower x n.
Proof.
  intros Hx Hn. rewrite <- (Rpower_O x) by lra.
  apply Rpower_lt; assumption.
Qed.

(** Mean value form of [t^(n+1) - t] on an interval of positive reals. *)
Lemma annuity_numerator_mvt (n a b : R) :
  0 < a -> a < b ->
  exists c,
    (Rpower b (n + 1) - b) - (Rpower a (n + 1) - a) =
      ((n + 1) * Rpower c n - 1) * (b - a) /\ a < c < b.
Proof.
  intros Ha Hab.
  destruct (MVT_cor2 (fun t => Rpower t (n + 1) - t)
              (fun t => (n + 1) * Rpower t (n + 1 - 1) - 1) a b Hab)
    as (c & Heq & Hc).
  - intros c Hc.
    apply (derivable_pt_lim_minus (fun t => Rpower t (n + 1)) (fun t => t)).
    + apply derivable_pt_lim_power. lra.
    + apply derivable_pt_lim_id.
  - exists c. split; [| exact Hc].
    replace (n + 1 - 1) with n in Heq by lra. exact Heq.
Qed.

(** The annuity-due factor [((1+r)^n - 1) / r * (1+r)] is the slope of the
    chord of the convex function [t^(n+1) - t] between [1] and [1 + r]; it
    grows with [r]. *)
Lemma annuity_factor_increasing (n r1 r2 : R) :
  0 < n -> 0 < r1 -> r1 < r2 ->
  (Rpower (1 + r1) n - 1) / r1 * (1 + r1)
  < (Rpower (1 + r2) n - 1) / r2 * (1 + r2).
Proof.
  intros Hn Hr1 Hr12.
  set (x := 1 + r1). set (y := 1 + r2).
  assert (Hx : 0 < x - 1) by (unfold x; lra).
  assert (Hy : 0 < y - 1) by (unfold y; lra).
  assert (Hxy : 0 < y - x) by (unfold x, y; lra).
  destruct (annuity_numerator_mvt n 1 x) as (c1 & H1 & Hc1); [lra | lra |].
  destruct (annuity_numerator_mvt n x y) as (c2 & H2 & Hc2); [lra | lra |].
  rewrite Rpower_one in H1.
  assert (Hd : Rpower c1 n < Rpower c2 n) by (apply Rlt_Rpower_l; lra).
  set (A := (n + 1) * Rpower c1 n - 1) in *.
  set (B := (n + 1) * Rpower c2 n - 1) in *.
  assert (HAB : A < B) by (unfold A, B; nra).
  rewrite (Rpower_succ x) in H1, H2 by lra.
  rewrite (Rpower_succ y) in H2 by lra.
  replace r1 with (x - 1) by (unfold x; lra).
  replace r2 with (y - 1) by (unfold y; lra).
  replace ((Rpower x n - 1) / (x - 1) * x) with A.
  2:{ replace ((Rpower x n - 1) / (x - 1) * x)
        with ((Rpower x n * x - x) / (x - 1)) by (field; lra).
      replace (Rpower x n * x - x) with (A * (x - 1)) by lra.
      field. lra. }
  replace ((Rpower y n - 1) / (y - 1) * y)
    with ((A * (x - 1) + B * (y - x)) / (y - 1)).
  2:{ replace ((Rpower y n - 1) / (y - 1) * y)
        with ((Rpower y n * y - y) / (y - 1)) by (field; lra).
      f_equal. lra. }
  apply Rmult_lt_reg_r with (y - 1); [assumption |].
  replace ((A * (x - 1) + B * (y - x)) / (y - 1) * (y - 1))
    with (A * (x - 1) + B * (y - x)) by (field; lra).
  nra.
Qed.

Lemma annuity_factor_pos (n r : R) :
  0 < n -> 0 < r -> 0 < (Rpower (1 + r) n - 1) / r * (1 + r).
Proof.
  intros Hn Hr.
  pose proof (Rpower_gt_1 (1 + r) n ltac:(lra) Hn) as Hpow.
  apply Rmult_lt_0_compat; [| lra].
  apply Rdiv_lt_0_compat; lra.
Qed.

Lemma calculateSIP_futureValue (P rate years : R) :
  0 < rate ->
  futureValue (calculateSIP (Fin P) (Fin rate) (Fin years)) =
    Fin (P * ((Rpower (1 + rate / 100 / 12) (years * 12) - 1)
              / (rate / 100 / 12) * (1 + rate / 100 / 12))).
Proof.
  intros Hrate.
  rewrite calculateSIP_closed_form by lra.
  cbn [futureValue]. f_equal. lra.
Qed.

Lemma calculateLumpsum_futureValue (P rate years : R) :
  0 <= rate ->
  futureValue (calculateLumpsum (Fin P) (Fin rate) (Fin years)) =
    Fin (P * Rpower (1 + rate / 100) years).
Proof.
  intros Hrate. rewrite calculateLumpsum_closed_form by lra. reflexivity.
Qed.

Lemma calculateInflationAdjusted_value (nominal rate years : R) :
  0 <= rate ->
  inflationAdjustedValue
    (calculateInflationAdjusted (Fin nominal) (Fin rate) (Fin years)) =
    Fin (nominal / Rpower (1 + rate / 100) years).
Proof.
  intros Hrate. unfold calculateInflationAdjusted.
  rewrite annual_rate. cbn [js_add inflationAdjustedValue].
  rewrite Math_pow_pos by lra.
  apply js_div_fin.
  apply Rgt_not_eq. unfold Rpower. apply exp_pos.
Qed.

Lemma Rdiv_lt_contravar (a b c : R) :
  0 < a -> 0 < b -> b < c -> a / c < a / b.
Proof.
  intros Ha Hb Hbc. unfold Rdiv.
  apply Rmult_lt_compat_l; [assumption |].
  apply Rinv_lt_contravar; [apply Rmult_lt_0_compat; lra | assumption].
Qed.

(** C8 (as amended).  With [P > 0], [years > 0], [rate >= 0] and
    [nominal > 0], the other parameters held fixed:
    - for [calculateSIP], at a rate above zero, a larger rate, a larger
      contribution or a longer duration gives a strictly larger
      [futureValue];
    - for [calculateLumpsum], a larger rate or a larger principal gives a
      strictly larger [futureValue], and so does a longer duration at a rate
      above zero;
    - for [calculateInflationAdjusted], a larger inflation rate gives a
      strictly smaller [inflationAdjustedValue], and so does a longer
      duration at an inflation rate above zero. *)
Theorem futureValue_strictly_monotone (P rate years nominal : R) :
  0 < P -> 0 < years -> 0 <= rate -> 0 < nominal ->
  (forall rate', 0 < rate -> rate < rate' ->
     (futureValue (calculateSIP (Fin P) (Fin rate) (Fin years))
      < futureValue (calculateSIP (Fin P) (Fin rate') (Fin years)))%js
     = true) /\
  (forall P', 0 < rate -> P < P' ->
     (futureValue (calculateSIP (Fin P) (Fin rate) (Fin years))
      < futureValue (calculateSIP (Fin P') (Fin rate) (Fin years)))%js
     = true) /\
  (forall years', 0 < rate -> years < years' ->
     (futureValue (calculateSIP (Fin P) (Fin rate) (Fin years))
      < futureValue (calculateSIP (Fin P) (Fin rate) (Fin years')))%js
     = true) /\
  (forall rate', rate < rate' ->
     (futureValue (calculateLumpsum (Fin P) (Fin rate) (Fin years))
      < futureValue (calculateLumpsum (Fin P) (Fin rate') (Fin years)))%js
     = true) /\
  (forall P', P < P' ->
     (futureValue (calculateLumpsum (Fin P) (Fin rate) (Fin years))
      < futureValue (calculateLumpsum (Fin P') (Fin rate) (Fin years)))%js
     = true) /\
  (forall years', 0 < rate -> years < years' ->
     (futureValue (calculateLumpsum (Fin P) (Fin rate) (Fin years))
      < futureValue (calculateLumpsum (Fin P) (Fin rate) (Fin years')))%js
     = true) /\
  (forall rate', rate < rate' ->
     (inflationAdjustedValue
        (calculateInflationAdjusted (Fin nominal) (Fin rate') (Fin years))
      < inflationAdjustedValue
          (calculateInflationAdjusted (Fin nominal) (Fin rate) (Fin years)))%js
     = true) /\
  (forall years', 0 < rate -> years < years' ->
     (inflationAdjustedValue
        (calculateInflationAdjusted (Fin nominal) (Fin rate) (Fin years'))
      < inflationAdjustedValue
          (calculateInflationAdjusted (Fin nominal) (Fin rate) (Fin years)))%js
     = true).
Proof.
  intros HP Hyears Hrate Hnominal.
  assert (Hn : 0 < years * 12) by lra.
  repeat split.
  - (* SIP, rate *)
    intros rate' Hpos Hlt.
    rewrite !calculateSIP_futureValue by lra. apply js_lt_fin.
    apply Rmult_lt_compat_l; [assumption |].
    apply annuity_factor_increasing; lra.
  - (* SIP, contribution *)
    intros P' Hpos Hlt.
    rewrite !calculateSIP_futureValue by lra. apply js_lt_fin.
    apply Rmult_lt_compat_r; [| assumption].
    apply annuity_factor_pos; lra.
  - (* SIP, duration *)
    intros years' Hpos Hlt.
    rewrite !calculateSIP_futureValue by lra. apply js_lt_fin.
    apply Rmult_lt_compat_l; [assumption |].
    apply Rmult_lt_compat_r; [lra |].
    apply Rmult_lt_compat_r; [apply Rinv_0_lt_compat; lra |].
    apply Rplus_lt_compat_r.
    apply Rpower_lt; lra.
  - (* lumpsum, rate *)
    intros rate' Hlt.
    rewrite !calculateLumpsum_futureValue by lra. apply js_lt_fin.
    apply Rmult_lt_compat_l; [assumption |].
    apply Rlt_Rpower_l; lra.
  - (* lumpsum, principal *)
    intros P' Hlt.
    rewrite !calculateLumpsum_futureValue by lra. apply js_lt_fin.
    apply Rmult_lt_compat_r; [| assumption].
    unfold Rpower. apply exp_pos.
  - (* lumpsum, duration *)
    intros years' Hpos Hlt.
    rewrite !calculateLumpsum_futureValue by lra. apply js_lt_fin.
    apply Rmult_lt_compat_l; [assumption |].
    apply Rpower_lt; lra.
  - (* inflation, rate *)
    intros rate' Hlt.
    rewrite !calculateInflationAdjusted_value by lra. apply js_lt_fin.
    apply Rdiv_lt_contravar; [assumption | unfold Rpower; apply exp_pos |].
    apply Rlt_Rpower_l; lra.
  - (* inflation, duration *)
    intros years' Hpos Hlt.
    rewrite !calculateInflationAdjusted_value by lra. apply js_lt_fin.
    apply Rdiv_lt_contravar; [assumption | unfold Rpower; apply exp_pos |].
    apply Rpower_lt; lra.
Qed.

Lemma futureValue_strictly_monotone_witness :
  (futureValue (calculateSIP (Fin 5000) (Fin 8) (Fin 10))
   < futureValue (calculateSIP (Fin 5000) (Fin 15) (Fin 10)))%js = true /\
  (futureValue (calculateSIP (Fin 5000) (Fin 8) (Fin 10))
   < futureValue (calculateSIP (Fin 6000) (Fin 8) (Fin 10)))%js = true /\
  (futureValue (calculateSIP (Fin 5000) (Fin 8) (Fin 10))
   < futureValue (calculateSIP (Fin 5000) (Fin 8) (Fin 20)))%js = true /\
  (futureValue (calculateLumpsum (Fin 5000) (Fin 8) (Fin 10))
   < futureValue (calculateLumpsum (Fin 5000) (Fin 15) (Fin 10)))%js = true /\
  (futureValue (calculateLumpsum (Fin 5000) (Fin 8) (Fin 10))
   < futureValue (calculateLumpsum (Fin 6000) (Fin 8) (Fin 10)))%js = true /\
  (futureValue (calculateLumpsum (Fin 5000) (Fin 8) (Fin 10))
   < futureValue (calculateLumpsum (Fin 5000) (Fin 8) (Fin 20)))%js = true /\
  (inflationAdjustedValue
     (calculateInflationAdjusted (Fin 1000000) (Fin 15) (Fin 10))
   < inflationAdjustedValue
       (calculateInflationAdjusted (Fin 1000000) (Fin 8) (Fin 10)))%js = true /\
  (inflationAdjustedValue
     (calculateInflationAdjusted (Fin 1000000) (Fin 8) (Fin 20))
   < inflationAdjustedValue
       (calculateInflationAdjusted (Fin 1000000) (Fin 8) (Fin 10)))%js = true.
Proof.
  destruct (futureValue_strictly_monotone 5000 8 10 1000000)
    as (H1 & H2 & H3 & H4 & H5 & H6 & H7 & H8); try lra.
  repeat split;
    [apply H1 | apply H2 | apply H3 | apply H4
     | apply H5 | apply H6 | apply H7 | apply H8]; lra.
Defined.

(** C8 as stated fails at rate zero, which it admits: a lumpsum of 1000 at
    0% is worth 1000 after one year and after two years, and 1000000 at 0%
    inflation is worth 1000000 after one year and after two; the longer
    duration changes neither value. *)
Lemma duration_not_strict_at_zero_rate :
  futureValue (calculateLumpsum (Fin 1000) (Fin 0) (Fin 1)) = Fin 1000 /\
  futureValue (calculateLumpsum (Fin 1000) (Fin 0) (Fin 2)) = Fin 1000 /\
  (futureValue (calculateLumpsum (Fin 1000) (Fin 0) (Fin 1))
   < futureValue (calculateLumpsum (Fin 1000) (Fin 0) (Fin 2)))%js = false /\
  (inflationAdjustedValue
     (calculateInflationAdjusted (Fin 1000000) (Fin 0) (Fin 2))
   < inflationAdjustedValue
       (calculateInflationAdjusted (Fin 1000000) (Fin 0) (Fin 1)))%js = false.
Proof.
  assert (Hbase : 1 + 0 / 100 = 1) by lra.
  assert (HL : forall y,
    futureValue (calculateLumpsum (Fin 1000) (Fin 0) (Fin y)) = Fin 1000).
  { intros y. rewrite calculateLumpsum_futureValue by lra.
    rewrite Hbase, Rpower_one. f_equal. lra. }
  assert (HI : forall y,
    inflationAdjustedValue
      (calculateInflationAdjusted (Fin 1000000) (Fin 0) (Fin y))
    = Fin 1000000).
  { intros y. rewrite calculateInflationAdjusted_value by lra.
    rewrite Hbase, Rpower_one. f_equal. lra. }
  rewrite !HL, !HI. repeat split.
  - unfold js_lt. destruct (Rlt_dec 1000 1000); [exfalso; lra | reflexivity].
  - unfold js_lt.
    destruct (Rlt_dec 1000000 1000000); [exfalso; lra | reflexivity].
Qed.

(* ================================================================= *)
(** ** Formatting *)

Lemma formatINR_integer (z : Z) :
  formatINR (Fin (IZR z)) = ("Rs. " ++ group_en_IN z)%string.
Proof.
  unfold formatINR, Math_round, toLocaleString_en_IN.
  rewrite Rround_IZR, Rfloor_IZR. reflexivity.
Qed.

(** C9.  [formatINR] prefixes ["Rs. "] to the rounded amount with its digits
    grouped by the Indian convention, the three lowest digits and then groups
    of two: 100000 gives ["1,00,000"], 1200000 gives ["12,00,000"], 0 gives
    ["0"], and an amount with a fraction is rounded first.  [formatPercent]
    is the string of the number followed by ["%"]. *)
Theorem formatting_conventions (toString : number -> string) (value : number) :
  formatINR (Fin 100000) = "Rs. 1,00,000"%string /\
  formatINR (Fin 0) = "Rs. 0"%string /\
  formatINR (Fin 1000) = "Rs. 1,000"%string /\
  formatINR (Fin 1200000) = "Rs. 12,00,000"%string /\
  formatINR (Fin 123456789) = "Rs. 12,34,56,789"%string /\
  formatINR (Fin 1161695.38) = "Rs. 11,61,695"%string /\
  formatPercent toString value = (toString value ++ "%")%string.
Proof.
  repeat split; try (rewrite formatINR_integer; reflexivity).
  unfold formatINR, Math_round, toLocaleString_en_IN.
  assert (Hround : Rround 1161695.38 = 1161695%Z)
    by (apply Rfloor_spec; lra).
  rewrite Hround, Rfloor_IZR. reflexivity.
Qed.

(* ================================================================= *)
(** ** Values of the test suite, recomputed on the model *)

(** TC-SWP-01, 02, 04: a corpus of 2,000,000 at 8% with 20,000 a month
    lasts 166 months, 13 years and 10 months. *)
Example calculateSWP_13_years_10_months :
  calculateSWP (Fin 2000000) (Fin 20000) (Fin 8) =
    SWP.mkResult (Fin 166) (Fin 13) (Fin 10) (Fin 3320000) false.
Proof.
  destruct (calculateSWP_finite_branch 2000000 20000 8) as [_ Heq]; try lra.
  rewrite Heq.
  assert (Hm : Rceil (swp_duration_spec 2000000 20000 (8 / 1200)) = 166%Z).
  { apply Rceil_spec. unfold swp_duration_spec.
    destruct (Req_dec_T (8 / 1200) 0) as [Hz | _]; [exfalso; lra |].
    replace (1 - 2000000 * (8 / 1200) / 20000) with (/ 3) by lra.
    replace (1 + 8 / 1200) with (151 / 150) by lra.
    rewrite ln_Rinv by lra. rewrite Ropp_involutive.
    assert (Hden : 0 < ln (151 / 150)).
    { rewrite <- ln_1. apply ln_increasing; lra. }
    assert (Hlo : INR 165 * ln (151 / 150) < ln 3).
    { rewrite <- ln_pow by lra. apply ln_increasing; [| lra].
      apply pow_lt. lra. }
    assert (Hhi : ln 3 <= INR 166 * ln (151 / 150)).
    { rewrite <- ln_pow by lra.
      destruct (Req_dec_T 3 ((151 / 150) ^ 166)) as [He | Hne];
        [rewrite <- He; lra |].
      left. apply ln_increasing; lra. }
    rewrite INR_IZR_INZ in Hlo, Hhi. simpl in Hlo, Hhi.
    split.
    - apply Rmult_lt_reg_r with (ln (151 / 150)); [assumption |].
      unfold Rdiv. rewrite Rmult_assoc, Rinv_l by lra. lra.
    - apply Rmult_le_reg_r with (ln (151 / 150)); [assumption |].
      unfold Rdiv. rewrite Rmult_assoc, Rinv_l by lra. lra. }
  rewrite Hm. repeat f_equal. lra.
Qed.

(** TC-SWP-03, 10: the plan is indefinite when the monthly interest covers
    the withdrawal, also when the two are equal. *)
Example calculateSWP_indefinite_cases :
  SWP.isIndefinite (calculateSWP (Fin 1000000) (Fin 5000) (Fin 10)) = true /\
  SWP.isIndefinite (calculateSWP (Fin 5000000) (Fin 50000) (Fin 12)) = true.
Proof.
  split; rewrite calculateSWP_indefinite_branch by lra; reflexivity.
Qed.

(** TC-SIP-04, 05: 1,000 a month at 12% for one year invests 12,000 and is
    worth about 12,809. *)
Example calculateSIP_one_year :
  exists fv,
    calculateSIP (Fin 1000) (Fin 12) (Fin 1) =
      mkReturns (Fin fv) (Fin 12000) (Fin (fv - 12000)) /\
    12809 < fv < 12810.
Proof.
  rewrite calculateSIP_closed_form by lra.
  eexists. split; [f_equal; f_equal; lra |].
  replace (1 * 12) with (INR 12) by (rewrite INR_IZR_INZ; simpl; lra).
  rewrite Rpower_pow by lra. lra.
Qed.

(* ================================================================= *)
(** ** Further properties of the calculators *)

(* ----------------------------------------------------------------- *)
(** *** Periodic investment *)

(** The annuity-due factor exceeds the number of periods: it is the
    derivative [(n+1) c^n - 1] of [t^(n+1) - t] at some [c > 1]. *)
Lemma annuity_factor_gt_periods (n r : R) :
  0 < n -> 0 < r -> n < (Rpower (1 + r) n - 1) / r * (1 + r).
Proof.
  intros Hn Hr.
  destruct (annuity_numerator_mvt n 1 (1 + r)) as (c & Hc & Hrange);
    [lra | lra |].
  rewrite Rpower_one in Hc. rewrite Rpower_succ in Hc by lra.
  pose proof (Rpower_gt_1 c n ltac:(lra) Hn) as Hpow.
  replace ((Rpower (1 + r) n - 1) / r * (1 + r))
    with ((Rpower (1 + r) n * (1 + r) - (1 + r) - (1 - 1)) / r)
    by (field; lra).
  rewrite Hc. replace (1 + r - 1) with r by lra.
  replace (((n + 1) * Rpower c n - 1) * r / r) with ((n + 1) * Rpower c n - 1)
    by (field; lra).
  nra.
Qed.

(** X1.  At a rate above zero, with a positive contribution and duration,
    [calculateSIP] returns finite amounts, [totalInvested] is [P * years * 12]
    and [futureValue] is strictly above it, so [estimatedReturns] is
    positive. *)
Theorem calculateSIP_gains (P rate years : R) :
  0 < P -> 0 < rate -> 0 < years ->
  exists fv,
    calculateSIP (Fin P) (Fin rate) (Fin years) =
      mkReturns (Fin fv) (Fin (P * (years * 12)))
        (Fin (fv - P * (years * 12))) /\
    P * (years * 12) < fv /\
    0 < fv - P * (years * 12).
Proof.
  intros HP Hrate Hyears.
  rewrite calculateSIP_closed_form by lra.
  eexists. split; [reflexivity |].
  pose proof (annuity_factor_gt_periods (years * 12) (rate / 100 / 12)
                ltac:(lra) ltac:(lra)) as Hgt.
  assert (P * (years * 12)
          < P * ((Rpower (1 + rate / 100 / 12) (years * 12) - 1)
                 / (rate / 100 / 12) * (1 + rate / 100 / 12)))
    by (apply Rmult_lt_compat_l; assumption).
  lra.
Qed.

Lemma calculateSIP_gains_witness :
  exists fv,
    calculateSIP (Fin 500) (Fin 1) (Fin 1) =
      mkReturns (Fin fv) (Fin (500 * (1 * 12))) (Fin (fv - 500 * (1 * 12))) /\
    500 * (1 * 12) < fv /\
    0 < fv - 500 * (1 * 12).
Proof. apply (calculateSIP_gains 500 1 1); lra. Defined.

(** X2.  [calculateSIP] is proportional to the contribution: at a rate above
    zero, multiplying [P] by [c] multiplies [futureValue], [totalInvested]
    and [estimatedReturns] by [c]. *)
Theorem calculateSIP_scales (c P rate years : R) :
  0 < rate ->
  exists fv inv ret,
    calculateSIP (Fin P) (Fin rate) (Fin years) =
      mkReturns (Fin fv) (Fin inv) (Fin ret) /\
    calculateSIP (Fin (c * P)) (Fin rate) (Fin years) =
      mkReturns (Fin (c * fv)) (Fin (c * inv)) (Fin (c * ret)).
Proof.
  intros Hrate. rewrite !calculateSIP_closed_form by lra.
  do 3 eexists. split; [reflexivity |].
  f_equal; f_equal; lra.
Qed.

Lemma calculateSIP_scales_witness :
  exists fv inv ret,
    calculateSIP (Fin 5000) (Fin 12) (Fin 10) =
      mkReturns (Fin fv) (Fin inv) (Fin ret) /\
    calculateSIP (Fin (2 * 5000)) (Fin 12) (Fin 10) =
      mkReturns (Fin (2 * fv)) (Fin (2 * inv)) (Fin (2 * ret)).
Proof. apply (calculateSIP_scales 2 5000 12 10); lra. Defined.

(* ----------------------------------------------------------------- *)
(** *** Lumpsum, inflation adjustment and CAGR *)

Lemma Rpower_ge_1 (x y : R) : 1 <= x -> 0 <= y -> 1 <= Rpower x y.
Proof.
  intros Hx Hy. rewrite <- (Rpower_O x) by lra.
  apply Rle_Rpower; assumption.
Qed.

Lemma Rpower_pos (x y : R) : 0 < Rpower x y.
Proof. unfold Rpower. apply exp_pos. Qed.

Lemma Math_pow_zero_exponent (base : number) : Math_pow base (Fin 0) = Fin 1.
Proof.
  unfold Math_pow. destruct (Req_dec_T 0 0); [reflexivity | contradiction].
Qed.

(** X3.  A lumpsum never shrinks at a non-negative rate: for [P >= 0],
    [rate >= 0] and [years >= 0] the future value is at least [P] and the
    estimated returns are non-negative; with [P], [rate] and [years] all
    positive both inequalities are strict. *)
Theorem calculateLumpsum_gains (P rate years : R) :
  0 <= P -> 0 <= rate -> 0 <= years ->
  exists fv,
    calculateLumpsum (Fin P) (Fin rate) (Fin years) =
      mkReturns (Fin fv) (Fin P) (Fin (fv - P)) /\
    P <= fv /\
    (0 < P -> 0 < rate -> 0 < years -> P < fv).
Proof.
  intros HP Hrate Hyears.
  rewrite calculateLumpsum_closed_form by lra.
  eexists. split; [reflexivity |]. split.
  - pose proof (Rpower_ge_1 (1 + rate / 100) years ltac:(lra) Hyears).
    nra.
  - intros HP' Hrate' Hyears'.
    pose proof (Rpower_gt_1 (1 + rate / 100) years ltac:(lra) Hyears').
    nra.
Qed.

Lemma calculateLumpsum_gains_witness :
  exists fv,
    calculateLumpsum (Fin 10000) (Fin 1) (Fin 1) =
      mkReturns (Fin fv) (Fin 10000) (Fin (fv - 10000)) /\
    10000 <= fv /\
    (0 < 10000 -> 0 < 1 -> 0 < 1 -> 10000 < fv).
Proof. apply (calculateLumpsum_gains 10000 1 1); lra. Defined.

(** X4.  The neutral inputs of [calculateLumpsum] and
    [calculateInflationAdjusted]: over zero years the amount is returned
    unchanged whatever the rate is (also [NaN] or an infinity, since
    [Math.pow(x, 0)] is 1 for every [x]), and so it is at a zero rate over
    any finite duration; the returns, and the purchasing-power loss, are
    then zero. *)
Theorem neutral_rate_and_duration (P years : R) (rate : number) :
  calculateLumpsum (Fin P) rate (Fin 0) = mkReturns (Fin P) (Fin P) (Fin 0) /\
  calculateLumpsum (Fin P) (Fin 0) (Fin years) =
    mkReturns (Fin P) (Fin P) (Fin 0) /\
  calculateInflationAdjusted (Fin P) rate (Fin 0) =
    mkInflationResult (Fin P) (Fin 0) /\
  calculateInflationAdjusted (Fin P) (Fin 0) (Fin years) =
    mkInflationResult (Fin P) (Fin 0).
Proof.
  assert (Hbase : 1 + 0 / 100 = 1) by lra.
  repeat split.
  - unfold calculateLumpsum. rewrite Math_pow_zero_exponent.
    cbn [js_mul js_sub]. f_equal; f_equal; lra.
  - rewrite calculateLumpsum_closed_form by lra.
    rewrite Hbase, Rpower_one. f_equal; f_equal; lra.
  - unfold calculateInflationAdjusted. rewrite Math_pow_zero_exponent.
    rewrite js_div_fin by lra. cbn [js_sub]. f_equal; f_equal; lra.
  - unfold calculateInflationAdjusted. rewrite annual_rate. cbn [js_add].
    rewrite Math_pow_pos by lra. rewrite Hbase, Rpower_one.
    rewrite js_div_fin by lra. cbn [js_sub]. f_equal; f_equal; lra.
Qed.

Lemma calculateInflationAdjusted_closed_form (nominal rate years : R) :
  0 < 1 + rate / 100 ->
  calculateInflationAdjusted (Fin nominal) (Fin rate) (Fin years) =
    mkInflationResult
      (Fin (nominal / Rpower (1 + rate / 100) years))
      (Fin (nominal - nominal / Rpower (1 + rate / 100) years)).
Proof.
  intros Hbase. unfold calculateInflationAdjusted.
  rewrite annual_rate. cbn [js_add].
  rewrite Math_pow_pos by assumption.
  rewrite js_div_fin by (apply Rgt_not_eq, Rpower_pos).
  reflexivity.
Qed.

(** X5.  Inflation never adds value: for a non-negative nominal value,
    inflation rate and duration, the adjusted value lies between 0 and the
    nominal value, the purchasing-power loss is non-negative, and the two
    add up to the nominal value. *)
Theorem calculateInflationAdjusted_bounds (nominal rate years : R) :
  0 <= nominal -> 0 <= rate -> 0 <= years ->
  exists adjusted loss,
    calculateInflationAdjusted (Fin nominal) (Fin rate) (Fin years) =
      mkInflationResult (Fin adjusted) (Fin loss) /\
    0 <= adjusted <= nominal /\
    0 <= loss /\
    adjusted + loss = nominal.
Proof.
  intros Hnominal Hrate Hyears.
  rewrite calculateInflationAdjusted_closed_form by lra.
  do 2 eexists. split; [reflexivity |].
  pose proof (Rpower_ge_1 (1 + rate / 100) years ltac:(lra) Hyears) as Hge.
  set (k := Rpower (1 + rate / 100) years) in *.
  assert (Hinv : 0 < / k <= 1).
  { split; [apply Rinv_0_lt_compat; lra |].
    rewrite <- Rinv_1. apply Rinv_le_contravar; lra. }
  unfold Rdiv. split; [nra | split; [nra | lra]].
Qed.

Lemma calculateInflationAdjusted_bounds_witness :
  exists adjusted loss,
    calculateInflationAdjusted (Fin 1000000) (Fin 8) (Fin 15) =
      mkInflationResult (Fin adjusted) (Fin loss) /\
    0 <= adjusted <= 1000000 /\
    0 <= loss /\
    adjusted + loss = 1000000.
Proof. apply (calculateInflationAdjusted_bounds 1000000 8 15); lra. Defined.

(** X6.  Discounting undoes compounding: adjusting the lumpsum future value
    for inflation at the same rate over the same duration gives the
    principal back, for every rate above -100%. *)
Theorem calculateInflationAdjusted_inverts_calculateLumpsum (P rate years : R) :
  -100 < rate ->
  inflationAdjustedValue
    (calculateInflationAdjusted
       (futureValue (calculateLumpsum (Fin P) (Fin rate) (Fin years)))
       (Fin rate) (Fin years)) = Fin P.
Proof.
  intros Hrate.
  rewrite calculateLumpsum_closed_form by lra. cbn [futureValue].
  rewrite calculateInflationAdjusted_closed_form by lra.
  cbn [inflationAdjustedValue]. f_equal.
  field. apply Rgt_not_eq, Rpower_pos.
Qed.

Lemma calculateInflationAdjusted_inverts_calculateLumpsum_witness :
  inflationAdjustedValue
    (calculateInflationAdjusted
       (futureValue (calculateLumpsum (Fin 100000) (Fin 6) (Fin 10)))
       (Fin 6) (Fin 10)) = Fin 100000.
Proof.
  apply (calculateInflationAdjusted_inverts_calculateLumpsum 100000 6 10); lra.
Defined.

(** X7.  The amounts are proportional to the money put in: multiplying the
    principal of [calculateLumpsum], or the nominal value of
    [calculateInflationAdjusted], by [c] multiplies every returned amount by
    [c] (rate above -100%). *)
Theorem amounts_scale (c P rate years : R) :
  -100 < rate ->
  (exists fv ret,
      calculateLumpsum (Fin P) (Fin rate) (Fin years) =
        mkReturns (Fin fv) (Fin P) (Fin ret) /\
      calculateLumpsum (Fin (c * P)) (Fin rate) (Fin years) =
        mkReturns (Fin (c * fv)) (Fin (c * P)) (Fin (c * ret))) /\
  (exists adjusted loss,
      calculateInflationAdjusted (Fin P) (Fin rate) (Fin years) =
        mkInflationResult (Fin adjusted) (Fin loss) /\
      calculateInflationAdjusted (Fin (c * P)) (Fin rate) (Fin years) =
        mkInflationResult (Fin (c * adjusted)) (Fin (c * loss))).
Proof.
  intros Hrate. split.
  - rewrite !calculateLumpsum_closed_form by lra.
    do 2 eexists. split; [reflexivity |]. f_equal; f_equal; lra.
  - rewrite !calculateInflationAdjusted_closed_form by lra.
    do 2 eexists. split; [reflexivity |]. f_equal; f_equal; lra.
Qed.

Lemma amounts_scale_witness :
  (exists fv ret,
      calculateLumpsum (Fin 100000) (Fin 12) (Fin 10) =
        mkReturns (Fin fv) (Fin 100000) (Fin ret) /\
      calculateLumpsum (Fin (2 * 100000)) (Fin 12) (Fin 10) =
        mkReturns (Fin (2 * fv)) (Fin (2 * 100000)) (Fin (2 * ret))) /\
  (exists adjusted loss,
      calculateInflationAdjusted (Fin 100000) (Fin 12) (Fin 10) =
        mkInflationResult (Fin adjusted) (Fin loss) /\
      calculateInflationAdjusted (Fin (2 * 100000)) (Fin 12) (Fin 10) =
        mkInflationResult (Fin (2 * adjusted)) (Fin (2 * loss))).
Proof. apply (amounts_scale 2 100000 12 10); lra. Defined.

Lemma calculateCAGR_closed_form (b e y : R) :
  0 < b -> 0 < e -> y <> 0 ->
  calculateCAGR (Fin b) (Fin e) (Fin y) =
    Fin ((Rpower (e / b) (1 / y) - 1) * 100).
Proof.
  intros Hb He Hy. unfold calculateCAGR.
  rewrite !js_div_fin by lra.
  rewrite Math_pow_pos by (apply Rdiv_lt_0_compat; assumption).
  reflexivity.
Qed.

(** X8.  The sign of the CAGR is the sign of the growth: with positive
    values and a positive duration the CAGR is a finite number, positive
    when the end value is above the begin value, zero when they are equal and
    negative when it is below; an end value of zero gives -100. *)
Theorem calculateCAGR_sign (b e y : R) :
  0 < b -> 0 < e -> 0 < y ->
  exists c,
    calculateCAGR (Fin b) (Fin e) (Fin y) = Fin c /\
    (b < e -> 0 < c) /\
    (e = b -> c = 0) /\
    (e < b -> -100 < c < 0) /\
    calculateCAGR (Fin b) (Fin 0) (Fin y) = Fin (-100).
Proof.
  intros Hb He Hy.
  rewrite calculateCAGR_closed_form by lra.
  eexists. split; [reflexivity |].
  assert (Hinv : 0 < 1 / y) by (apply Rdiv_lt_0_compat; lra).
  pose proof (Rpower_pos (e / b) (1 / y)) as Hpos.
  split; [| split; [| split]].
  - intros Hlt.
    assert (1 < e / b).
    { apply Rmult_lt_reg_r with b; [assumption |].
      unfold Rdiv. rewrite Rmult_assoc, Rinv_l by lra. lra. }
    pose proof (Rpower_gt_1 (e / b) (1 / y) ltac:(assumption) Hinv). lra.
  - intros ->. replace (b / b) with 1 by (field; lra).
    rewrite Rpower_one. lra.
  - intros Hlt.
    assert (Hratio : 0 < e / b < 1).
    { split; [apply Rdiv_lt_0_compat; assumption |].
      apply Rmult_lt_reg_r with b; [assumption |].
      unfold Rdiv. rewrite Rmult_assoc, Rinv_l by lra. lra. }
    pose proof (Rlt_Rpower_l (e / b) 1 (1 / y) Hinv ltac:(lra)) as Hmono.
    rewrite Rpower_one in Hmono. lra.
  - unfold calculateCAGR. rewrite !js_div_fin by lra.
    replace (0 / b) with 0 by (field; lra).
    rewrite Math_pow_zero_base by assumption.
    cbn [js_sub js_mul]. f_equal. lra.
Qed.

Lemma calculateCAGR_sign_witness :
  exists c,
    calculateCAGR (Fin 100000) (Fin 310585) (Fin 10) = Fin c /\
    (100000 < 310585 -> 0 < c) /\
    (310585 = 100000 -> c = 0) /\
    (310585 < 100000 -> -100 < c < 0) /\
    calculateCAGR (Fin 100000) (Fin 0) (Fin 10) = Fin (-100).
Proof. apply (calculateCAGR_sign 100000 310585 10); lra. Defined.

(** X9.  For a positive begin value, the CAGR grows strictly with the end
    value; and when the end value is above the begin value it falls strictly
    as the duration grows. *)
Theorem calculateCAGR_monotone (b e y : R) :
  0 < b -> 0 < e -> 0 < y ->
  (forall e', e < e' ->
     (calculateCAGR (Fin b) (Fin e) (Fin y)
      < calculateCAGR (Fin b) (Fin e') (Fin y))%js = true) /\
  (forall y', b < e -> y < y' ->
     (calculateCAGR (Fin b) (Fin e) (Fin y')
      < calculateCAGR (Fin b) (Fin e) (Fin y))%js = true).
Proof.
  intros Hb He Hy.
  assert (Hinv : 0 < 1 / y) by (apply Rdiv_lt_0_compat; lra).
  split.
  - intros e' Hlt.
    rewrite !calculateCAGR_closed_form by lra. apply js_lt_fin.
    assert (Hratio : 0 < e / b < e' / b).
    { split; [apply Rdiv_lt_0_compat; assumption |].
      unfold Rdiv. apply Rmult_lt_compat_r;
        [apply Rinv_0_lt_compat; assumption | assumption]. }
    pose proof (Rlt_Rpower_l _ _ (1 / y) Hinv Hratio). lra.
  - intros y' Hgrow Hlt.
    rewrite !calculateCAGR_closed_form by lra. apply js_lt_fin.
    assert (Hbase : 1 < e / b).
    { apply Rmult_lt_reg_r with b; [assumption |].
      unfold Rdiv. rewrite Rmult_assoc, Rinv_l by lra. lra. }
    assert (Hexp : 1 / y' < 1 / y).
    { unfold Rdiv. rewrite !Rmult_1_l.
      apply Rinv_lt_contravar; [apply Rmult_lt_0_compat; lra | assumption]. }
    pose proof (Rpower_lt (e / b) _ _ Hbase Hexp). lra.
Qed.

Lemma calculateCAGR_monotone_witness :
  (calculateCAGR (Fin 100000) (Fin 200000) (Fin 10)
   < calculateCAGR (Fin 100000) (Fin 400000) (Fin 10))%js = true /\
  (calculateCAGR (Fin 100000) (Fin 200000) (Fin 20)
   < calculateCAGR (Fin 100000) (Fin 200000) (Fin 10))%js = true.
Proof.
  destruct (calculateCAGR_monotone 100000 200000 10) as [He Hy]; try lra.
  split; [apply He | apply Hy]; lra.
Defined.

(** X10.  Compounding at the CAGR reaches the end value: for positive begin
    and end values and a positive duration, the lumpsum future value of the
    begin value at the rate [calculateCAGR(begin, end, years)] over [years]
    is the end value. *)
Theorem calculateLumpsum_inverts_calculateCAGR (b e y : R) :
  0 < b -> 0 < e -> 0 < y ->
  futureValue
    (calculateLumpsum (Fin b) (calculateCAGR (Fin b) (Fin e) (Fin y)) (Fin y))
  = Fin e.
Proof.
  intros Hb He Hy.
  rewrite calculateCAGR_closed_form by lra.
  pose proof (Rpower_pos (e / b) (1 / y)) as Hpos.
  assert (Hbase :
    1 + (Rpower (e / b) (1 / y) - 1) * 100 / 100 = Rpower (e / b) (1 / y))
    by lra.
  rewrite calculateLumpsum_closed_form by lra.
  cbn [futureValue]. f_equal.
  rewrite Hbase, Rpower_mult.
  replace (1 / y * y) with 1 by (field; lra).
  rewrite Rpower_1 by (apply Rdiv_lt_0_compat; assumption).
  field. lra.
Qed.

Lemma calculateLumpsum_inverts_calculateCAGR_witness :
  futureValue
    (calculateLumpsum (Fin 100000)
       (calculateCAGR (Fin 100000) (Fin 200000) (Fin 10)) (Fin 10))
  = Fin 200000.
Proof.
  apply (calculateLumpsum_inverts_calculateCAGR 100000 200000 10); lra.
Defined.

(** X11.  A duration of zero years is not rejected by [calculateCAGR]: the
    exponent [1 / 0] is [+Infinity], and the result is [+Infinity] when the
    end value is above the (positive) begin value, [NaN] when the two are
    equal, and -100 when the end value is lower (and not negative). *)
Theorem calculateCAGR_zero_years (b e : R) :
  0 < b -> 0 <= e ->
  (b < e -> calculateCAGR (Fin b) (Fin e) (Fin 0) = PInf) /\
  (e = b -> calculateCAGR (Fin b) (Fin e) (Fin 0) = NaN) /\
  (e < b -> calculateCAGR (Fin b) (Fin e) (Fin 0) = Fin (-100)).
Proof.
  intros Hb He.
  assert (Hexp : (Fin 1 / Fin 0)%js = PInf).
  { unfold js_div. destruct (Req_dec_T 0 0); [| contradiction].
    destruct (Rlt_dec 0 1); [reflexivity | exfalso; lra]. }
  assert (Hratio : 0 <= e / b).
  { unfold Rdiv. apply Rmult_le_pos; [assumption |].
    left. apply Rinv_0_lt_compat. assumption. }
  unfold calculateCAGR. rewrite Hexp, js_div_fin by lra.
  unfold Math_pow. rewrite (Rabs_right (e / b)) by lra.
  split; [| split].
  - intros Hlt.
    assert (1 < e / b).
    { apply Rmult_lt_reg_r with b; [assumption |].
      unfold Rdiv. rewrite Rmult_assoc, Rinv_l by lra. lra. }
    destruct (Rlt_dec 1 (e / b)); [| contradiction].
    cbn [js_sub js_mul]. unfold scale_inf.
    destruct (Rlt_dec 0 100); [reflexivity | exfalso; lra].
  - intros ->. replace (b / b) with 1 by (field; lra).
    destruct (Rlt_dec 1 1); [exfalso; lra |].
    destruct (Req_dec_T 1 1); [reflexivity | contradiction].
  - intros Hlt.
    assert (e / b < 1).
    { apply Rmult_lt_reg_r with b; [assumption |].
      unfold Rdiv. rewrite Rmult_assoc, Rinv_l by lra. lra. }
    destruct (Rlt_dec 1 (e / b)); [exfalso; lra |].
    destruct (Req_dec_T (e / b) 1); [exfalso; lra |].
    cbn [js_sub js_mul]. f_equal. lra.
Qed.

Lemma calculateCAGR_zero_years_witness :
  calculateCAGR (Fin 100000) (Fin 200000) (Fin 0) = PInf /\
  calculateCAGR (Fin 100000) (Fin 100000) (Fin 0) = NaN /\
  calculateCAGR (Fin 100000) (Fin 50000) (Fin 0) = Fin (-100).
Proof.
  split; [| split].
  - apply (calculateCAGR_zero_years 100000 200000); lra.
  - apply (calculateCAGR_zero_years 100000 100000); lra.
  - apply (calculateCAGR_zero_years 100000 50000); lra.
Defined.

(* ----------------------------------------------------------------- *)
(** *** Systematic withdrawal plan *)

Lemma Rceil_le (x y : R) : x <= y -> (Rceil x <= Rceil y)%Z.
Proof.
  intros Hxy.
  destruct (Rceil_bounds x) as [Hx _]. destruct (Rceil_bounds y) as [_ Hy].
  apply Z.lt_succ_r, lt_IZR. rewrite succ_IZR. lra.
Qed.

Lemma ln_1_plus_lt (r : R) : 0 < r -> 0 < ln (1 + r) < r.
Proof.
  intros Hr. split.
  - rewrite <- ln_1. apply ln_increasing; lra.
  - rewrite <- (ln_exp r) at 2.
    apply ln_increasing; [lra |]. apply exp_ineq1. lra.
Qed.

Lemma ln_1_minus_lt (x : R) : 0 < x < 1 -> ln (1 - x) < - x.
Proof.
  intros Hx. rewrite <- (ln_exp (- x)).
  apply ln_increasing; [lra |].
  replace (1 - x) with (1 + - x) by lra. apply exp_ineq1. lra.
Qed.

Lemma Rdiv_lt_1 (a b : R) : 0 < b -> a < b -> a / b < 1.
Proof.
  intros Hb Hab. apply Rmult_lt_reg_r with b; [assumption |].
  unfold Rdiv. rewrite Rmult_assoc, Rinv_l by lra. lra.
Qed.

(** The specified duration shrinks as the withdrawal grows. *)
Lemma swp_duration_spec_decreasing (C W1 W2 r : R) :
  0 < C -> 0 <= r -> C * r < W1 -> W1 < W2 ->
  swp_duration_spec C W2 r < swp_duration_spec C W1 r.
Proof.
  intros HC Hr Hlt HW.
  assert (HW1 : 0 < W1) by nra.
  unfold swp_duration_spec.
  destruct (Req_dec_T r 0) as [-> | Hr0].
  - apply Rdiv_lt_contravar; lra.
  - assert (Hcr : 0 < C * r) by (apply Rmult_lt_0_compat; lra).
    pose proof (Rdiv_lt_1 (C * r) W1 HW1 Hlt) as H1.
    pose proof (Rdiv_lt_contravar (C * r) W1 W2 Hcr HW1 HW) as H2.
    assert (H3 : 0 < C * r / W2) by (apply Rdiv_lt_0_compat; lra).
    assert (Hln : ln (1 - C * r / W1) < ln (1 - C * r / W2))
      by (apply ln_increasing; lra).
    destruct (ln_1_plus_lt r ltac:(lra)) as [Hden _].
    unfold Rdiv at 1 3.
    apply Rmult_lt_compat_r; [apply Rinv_0_lt_compat; assumption | lra].
Qed.

(** The specified duration is at least [C / W]: the interest only delays the
    depletion. *)
Lemma swp_duration_spec_lower_bound (C W r : R) :
  0 < C -> 0 < W -> 0 <= r -> C * r < W ->
  C / W <= swp_duration_spec C W r.
Proof.
  intros HC HW Hr Hlt. unfold swp_duration_spec.
  destruct (Req_dec_T r 0) as [-> | Hr0]; [lra |].
  assert (Hcr : 0 < C * r) by (apply Rmult_lt_0_compat; lra).
  assert (Hx : 0 < C * r / W < 1).
  { split; [apply Rdiv_lt_0_compat; assumption |].
    apply Rdiv_lt_1; assumption. }
  pose proof (ln_1_minus_lt _ Hx) as Hnum.
  destruct (ln_1_plus_lt r ltac:(lra)) as [Hden0 Hden].
  left.
  apply Rlt_trans with (C * r / W / ln (1 + r)).
  - replace (C / W) with (C * r / W / r) by (field; lra).
    apply Rdiv_lt_contravar; lra.
  - unfold Rdiv at 1 3.
    apply Rmult_lt_compat_r; [apply Rinv_0_lt_compat; assumption | lra].
Qed.

(** X12.  A larger withdrawal never lasts longer: for two withdrawals above
    the monthly interest, the plan with the larger one runs out in at most
    as many months as the other. *)
Theorem calculateSWP_withdrawal_monotone (C W1 W2 rate : R) :
  0 < C -> 0 <= rate -> C * (rate / 1200) < W1 -> W1 < W2 ->
  exists m1 m2 : Z,
    SWP.months (calculateSWP (Fin C) (Fin W1) (Fin rate)) = Fin (IZR m1) /\
    SWP.months (calculateSWP (Fin C) (Fin W2) (Fin rate)) = Fin (IZR m2) /\
    (1 <= m2 <= m1)%Z.
Proof.
  intros HC Hrate Hlt HW.
  assert (HW1 : 0 < W1) by nra.
  destruct (calculateSWP_finite_branch C W1 rate) as [_ Heq1]; try lra.
  destruct (calculateSWP_finite_branch C W2 rate) as [Hm2 Heq2]; try lra.
  rewrite Heq1, Heq2. cbn [SWP.months].
  do 2 eexists. split; [reflexivity |]. split; [reflexivity |].
  split; [exact Hm2 |].
  apply Rceil_le. left.
  apply swp_duration_spec_decreasing; lra.
Qed.

Lemma calculateSWP_withdrawal_monotone_witness :
  exists m1 m2 : Z,
    SWP.months (calculateSWP (Fin 2000000) (Fin 15000) (Fin 8))
      = Fin (IZR m1) /\
    SWP.months (calculateSWP (Fin 2000000) (Fin 25000) (Fin 8))
      = Fin (IZR m2) /\
    (1 <= m2 <= m1)%Z.
Proof.
  apply (calculateSWP_withdrawal_monotone 2000000 15000 25000 8); lra.
Defined.

(** X13.  The nominal total [W * months] of a finite plan covers the
    corpus: [totalWithdrawn] is at least the initial corpus, and at rate
    zero it exceeds the corpus by less than one withdrawal. *)
Theorem calculateSWP_totalWithdrawn_bounds (C W rate : R) :
  0 < C -> 0 < W -> 0 <= rate -> C * (rate / 1200) < W ->
  exists total,
    SWP.totalWithdrawn (calculateSWP (Fin C) (Fin W) (Fin rate)) = Fin total /\
    C <= total /\
    (rate = 0 -> total < C + W).
Proof.
  intros HC HW Hrate Hlt.
  destruct (calculateSWP_finite_branch C W rate HC HW Hrate Hlt) as [_ Heq].
  rewrite Heq. cbn [SWP.totalWithdrawn].
  eexists. split; [reflexivity |].
  set (n := swp_duration_spec C W (rate / 1200)).
  destruct (Rceil_bounds n) as [Hlo Hhi].
  pose proof (swp_duration_spec_lower_bound C W (rate / 1200) HC HW
                ltac:(lra) Hlt) as Hn.
  fold n in Hn.
  assert (HCW : C = W * (C / W)) by (field; lra).
  split.
  - rewrite HCW at 1. apply Rmult_le_compat_l; lra.
  - intros Hzero.
    assert (Hn0 : n = C / W).
    { unfold n, swp_duration_spec.
      destruct (Req_dec_T (rate / 1200) 0); [reflexivity | exfalso; lra]. }
    assert (Hwn : W * n = C) by (rewrite Hn0; field; lra).
    assert (W * (IZR (Rceil n) - 1) < W * n)
      by (apply Rmult_lt_compat_l; lra).
    lra.
Qed.

Lemma calculateSWP_totalWithdrawn_bounds_witness :
  exists total,
    SWP.totalWithdrawn (calculateSWP (Fin 100000) (Fin 5000) (Fin 0))
      = Fin total /\
    100000 <= total /\
    (0 = 0 -> total < 100000 + 5000).
Proof.
  apply (calculateSWP_totalWithdrawn_bounds 100000 5000 0); lra.
Defined.

(** X14.  Degenerate inputs of [calculateSWP] are classified, not rejected:
    with a positive corpus and a non-negative rate, a withdrawal of zero or
    less gives the indefinite result; with a corpus of zero and a positive
    withdrawal the result is the finite one with all durations zero,
    [isIndefinite = false]. *)
Theorem calculateSWP_degenerate (C W rate : R) :
  0 <= rate ->
  (0 < C -> W <= 0 ->
     calculateSWP (Fin C) (Fin W) (Fin rate) =
       SWP.mkResult (Fin 0) (Fin 0) (Fin 0) (Fin 0) true) /\
  (0 < W ->
     calculateSWP (Fin 0) (Fin W) (Fin rate) =
       SWP.mkResult (Fin 0) (Fin 0) (Fin 0) (Fin 0) false).
Proof.
  intros Hrate. split.
  - intros HC HW. apply calculateSWP_indefinite_branch.
    assert (0 <= C * (rate / 1200)) by (apply Rmult_le_pos; lra). lra.
  - intros HW.
    unfold calculateSWP. rewrite monthly_rate. cbn [js_mul].
    assert (Hle : (Fin W <= Fin (0 * (rate / 100 / 12)))%js = false)
      by (apply js_le_fin_false; lra).
    rewrite Hle.
    assert (Hn :
      (if (Fin (rate / 100 / 12) === Fin 0)%js then (Fin 0 / Fin W)%js
       else (- Math_log (Fin 1 - Fin (0 * (rate / 100 / 12)) / Fin W)
             / Math_log (Fin 1 + Fin (rate / 100 / 12)))%js)
      = Fin 0).
    { unfold js_eq.
      destruct (Req_dec_T (rate / 100 / 12) 0) as [Hz | Hnz].
      - rewrite js_div_fin by lra. f_equal. field. lra.
      - rewrite js_div_fin by lra. cbn [js_sub js_add].
        replace (1 - 0 * (rate / 100 / 12) / W) with 1 by (field; lra).
        unfold Math_log.
        destruct (Rlt_dec 0 1); [| exfalso; lra].
        destruct (Rlt_dec 0 (1 + rate / 100 / 12)); [| exfalso; lra].
        cbn [js_neg].
        destruct (ln_1_plus_lt (rate / 100 / 12) ltac:(lra)) as [Hden _].
        rewrite js_div_fin by lra.
        f_equal. rewrite ln_1. field. lra. }
    rewrite Hn. cbn [Math_ceil]. rewrite (Rceil_IZR 0).
    rewrite js_div_fin by lra. cbn [Math_floor js_mul].
    rewrite (Rfloor_div 0 12) by lia.
    rewrite (js_rem_12 0) by lia.
    f_equal; f_equal; simpl; lra.
Qed.

Lemma calculateSWP_degenerate_witness :
  calculateSWP (Fin 1000000) (Fin 0) (Fin 8) =
    SWP.mkResult (Fin 0) (Fin 0) (Fin 0) (Fin 0) true /\
  calculateSWP (Fin 0) (Fin 5000) (Fin 8) =
    SWP.mkResult (Fin 0) (Fin 0) (Fin 0) (Fin 0) false.
Proof.
  destruct (calculateSWP_degenerate 1000000 0 8) as [Hind _]; try lra.
  destruct (calculateSWP_degenerate 0 5000 8) as [_ Hfin]; try lra.
  split; [apply Hind; lra | apply Hfin; lra].
Defined.

(* ----------------------------------------------------------------- *)
(** *** Top-up SIP *)

(** [Math.pow] at a whole non-negative exponent is the iterated product,
    whatever the sign of the base. *)
Lemma Math_pow_nat (x : R) (n : nat) :
  Math_pow (Fin x) (Fin (INR n)) = Fin (x ^ n).
Proof.
  unfold Math_pow.
  destruct (Req_dec_T (INR n) 0) as [Hz | Hnz].
  - change 0 with (INR 0) in Hz. apply INR_eq in Hz. subst n. reflexivity.
  - assert (Hn : (0 < n)%nat).
    { destruct n; [exfalso; apply Hnz; reflexivity | lia]. }
    assert (HnR : 0 < INR n) by (apply lt_0_INR; assumption).
    destruct (Rlt_dec 0 x) as [Hpos | Hnpos].
    + rewrite Rpower_pow by assumption. reflexivity.
    + destruct (Req_dec_T x 0) as [-> | Hx].
      * destruct (Rlt_dec 0 (INR n)); [| contradiction].
        rewrite pow_i by assumption. reflexivity.
      * unfold is_integer. rewrite INR_IZR_INZ, Rfloor_IZR.
        destruct (Req_dec_T (IZR (Z.of_nat n)) (IZR (Z.of_nat n)));
          [| contradiction].
        rewrite pow_powerRZ. reflexivity.
Qed.

Lemma counter_minus_one (y : nat) : (of_nat (S y) - Fin 1)%js = Fin (INR y).
Proof. unfold of_nat. cbn [js_sub]. rewrite S_INR. f_equal. lra. Qed.

Lemma topup_monthlySIP (P t : R) (y : nat) :
  Math_round
    (Fin P * Math_pow (Fin 1 + Fin t / Fin 100) (of_nat (S y) - Fin 1))%js
  = Fin (IZR (Rround (P * (1 + t / 100) ^ y))).
Proof.
  rewrite annual_rate, counter_minus_one. cbn [js_add].
  rewrite Math_pow_nat. reflexivity.
Qed.

(** The contributions of a year add up to twelve times the monthly one,
    whatever the corpus and the rate are. *)
Lemma topup_months_invested (s i : R) (r c : number) (k : nat) :
  exists c',
    Nat.iter k (topup_month (Fin s) r) (c, Fin i) = (c', Fin (i + INR k * s)).
Proof.
  induction k as [| k [c' IH]].
  - exists c. simpl. do 2 f_equal. lra.
  - rewrite Nat.iter_succ, IH. eexists. unfold topup_month.
    cbn [js_add]. rewrite S_INR. do 2 f_equal. lra.
Qed.

Lemma topup_months_fin (s r c i : R) (k : nat) :
  Nat.iter k (topup_month (Fin s) (Fin r)) (Fin c, Fin i) =
    (Fin (Nat.iter k (fun c => (c + s) * (1 + r)) c), Fin (i + INR k * s)).
Proof.
  induction k as [| k IH].
  - simpl. do 2 f_equal. lra.
  - rewrite !Nat.iter_succ, IH. unfold topup_month.
    cbn [js_add js_mul]. rewrite S_INR. do 2 f_equal. lra.
Qed.

Lemma INR_12 : INR 12 = 12.
Proof. rewrite INR_IZR_INZ. reflexivity. Qed.

(** One year of the outer loop, for a finite contribution and step-up. *)
Lemma topup_year_contribution (P t : R) (r : number) (st : TopUpLoop.State)
    (y : nat) :
  let s := IZR (Rround (P * (1 + t / 100) ^ y)) in
  exists c',
    topup_year (Fin P) r (Fin t) st (S y) =
      TopUpLoop.mkState c'
        (TopUpLoop.totalInvested st + Fin (12 * s))%js
        (TopUpLoop.yearlyBreakdown st ++
           [TopUp.mkYearEntry (of_nat (S y)) (Fin s) (Fin (12 * s)) c']).
Proof.
  intros s. unfold topup_year. rewrite topup_monthlySIP. fold s.
  destruct (topup_months_invested s 0 r (TopUpLoop.corpus st) 12)
    as [c' Hiter].
  rewrite Hiter, INR_12.
  replace (0 + 12 * s) with (12 * s) by lra.
  eexists. reflexivity.
Qed.

(** The same year when the corpus and the rate are finite too. *)
Lemma topup_year_fin (P r t c : R) (i : number)
    (l : list TopUp.YearEntry) (y : nat) :
  let s := IZR (Rround (P * (1 + t / 100) ^ y)) in
  let c' := IZR (Rround (Nat.iter 12 (fun c => (c + s) * (1 + r)) c)) in
  topup_year (Fin P) (Fin r) (Fin t) (TopUpLoop.mkState (Fin c) i l) (S y) =
    TopUpLoop.mkState (Fin c') (i + Fin (12 * s))%js
      (l ++ [TopUp.mkYearEntry (of_nat (S y)) (Fin s) (Fin (12 * s)) (Fin c')]).
Proof.
  intros s c'. unfold topup_year. rewrite topup_monthlySIP. fold s.
  cbn [TopUpLoop.corpus TopUpLoop.totalInvested TopUpLoop.yearlyBreakdown].
  rewrite topup_months_fin, INR_12.
  replace (0 + 12 * s) with (12 * s) by lra.
  reflexivity.
Qed.

Lemma fold_right_Rplus_last (f : nat -> R) (k : nat) :
  fold_right Rplus 0 (map f (seq 0 (S k))) =
    fold_right Rplus 0 (map f (seq 0 k)) + f k.
Proof.
  rewrite seq_S, map_app, fold_right_app. cbn [map fold_right plus].
  generalize (map f (seq 0 k)). intros l.
  induction l as [| a l IH]; cbn [fold_right]; [lra | rewrite IH; lra].
Qed.

(** The contributions along the loop: they depend on [P] and the step-up
    rate only. *)
Lemma topup_loop_contributions (P t : R) (r : number) (k : nat) :
  let st := topup_loop (Fin P) r (Fin t) k in
  let contribution := fun m => IZR (Rround (P * (1 + t / 100) ^ m)) in
  TopUpLoop.totalInvested st =
    Fin (fold_right Rplus 0 (map (fun m => 12 * contribution m) (seq 0 k))) /\
  map TopUp.year (TopUpLoop.yearlyBreakdown st) = map of_nat (seq 1 k) /\
  map TopUp.monthlySIP (TopUpLoop.yearlyBreakdown st) =
    map (fun m => Fin (contribution m)) (seq 0 k) /\
  map TopUp.yearlyInvested (TopUpLoop.yearlyBreakdown st) =
    map (fun m => Fin (12 * contribution m)) (seq 0 k).
Proof.
  induction k as [| k (Hinv & Hyear & Hsip & Hyi)]; cbv zeta.
  - repeat split.
  - rewrite topup_loop_S.
    destruct (topup_year_contribution P t r (topup_loop (Fin P) r (Fin t) k) k)
      as [c' Hstep].
    cbv zeta in Hstep. rewrite Hstep.
    cbn [TopUpLoop.totalInvested TopUpLoop.yearlyBreakdown].
    split.
    + rewrite Hinv. cbn [js_add]. rewrite fold_right_Rplus_last. reflexivity.
    + rewrite !map_app, !seq_S, !map_app, Hyear, Hsip, Hyi. repeat split.
Qed.

(** X15.  The contributions of [calculateTopUpSIP], for a finite [P] and
    step-up rate and whatever the return rate is: the breakdown has one
    entry per whole year, numbered from 1; every [monthlySIP] is a whole
    number, in the first year [Math.round(P)]; [yearlyInvested] is twelve
    times the [monthlySIP] of its year; and [totalInvested] is the sum of
    the [yearlyInvested] amounts. *)
Theorem calculateTopUpSIP_contributions (P t y : R) (rate : number) :
  let k := Z.to_nat (Rfloor y) in
  exists res (contributions : list Z),
    calculateTopUpSIP (Fin P) rate (Fin y) (Fin t) = Some res /\
    List.length (TopUp.yearlyBreakdown res) = k /\
    List.length contributions = k /\
    hd (Rround P) contributions = Rround P /\
    map TopUp.year (TopUp.yearlyBreakdown res) = map of_nat (seq 1 k) /\
    map TopUp.monthlySIP (TopUp.yearlyBreakdown res) =
      map (fun z => Fin (IZR z)) contributions /\
    map TopUp.yearlyInvested (TopUp.yearlyBreakdown res) =
      map (fun z => Fin (12 * IZR z)) contributions /\
    TopUp.totalInvested res =
      Fin (fold_right Rplus 0 (map (fun z => 12 * IZR z) contributions)).
Proof.
  intros k. unfold calculateTopUpSIP. cbn [loop_trips]. fold k.
  destruct (topup_loop_contributions P t (rate / Fin 100 / Fin 12)%js k)
    as (Hinv & Hyear & Hsip & Hyi).
  eexists. exists (map (fun m => Rround (P * (1 + t / 100) ^ m)) (seq 0 k)).
  split; [reflexivity |].
  cbn [TopUp.yearlyBreakdown TopUp.totalInvested].
  rewrite !map_map.
  repeat split; try assumption.
  - rewrite <- (length_map TopUp.year), Hyear, length_map, length_seq.
    reflexivity.
  - rewrite length_map, length_seq. reflexivity.
  - destruct k as [| k']; [reflexivity |].
    cbn [seq map hd]. f_equal. simpl. lra.
Qed.

(** X16.  Without step-up every year contributes the same: at a step-up
    rate of zero each [monthlySIP] is [round(P)] and [totalInvested] is
    [12 * round(P)] times the number of whole years. *)
Theorem calculateTopUpSIP_no_step_up (P y : R) (rate : number) :
  let k := Z.to_nat (Rfloor y) in
  exists res,
    calculateTopUpSIP (Fin P) rate (Fin y) (Fin 0) = Some res /\
    map TopUp.monthlySIP (TopUp.yearlyBreakdown res) =
      map (fun _ => Math_round (Fin P)) (seq 0 k) /\
    TopUp.totalInvested res = Fin (12 * IZR (Rround P) * INR k).
Proof.
  intros k. unfold calculateTopUpSIP. cbn [loop_trips]. fold k.
  destruct (topup_loop_contributions P 0 (rate / Fin 100 / Fin 12)%js k)
    as (Hinv & _ & Hsip & _).
  eexists. split; [reflexivity |].
  cbn [TopUp.yearlyBreakdown TopUp.totalInvested].
  assert (Hsame :
    forall m, IZR (Rround (P * (1 + 0 / 100) ^ m)) = IZR (Rround P)).
  { intros m. do 2 f_equal.
    replace (1 + 0 / 100) with 1 by lra. rewrite pow1. lra. }
  split.
  - rewrite Hsip. apply map_ext. intros m. cbn [Math_round].
    rewrite Hsame. reflexivity.
  - rewrite Hinv. f_equal.
    clear Hinv Hsip. induction k as [| k IH].
    + simpl. lra.
    + rewrite fold_right_Rplus_last, IH, Hsame, S_INR. lra.
Qed.

Lemma Rround_ge (z : Z) (x : R) : IZR z <= x -> (z <= Rround x)%Z.
Proof.
  intros Hx. unfold Rround.
  destruct (Rfloor_bounds (x + / 2)) as [_ Hhi].
  apply Z.lt_succ_r, lt_IZR. rewrite succ_IZR. lra.
Qed.

(** A year of monthly compounding at a non-negative rate keeps at least
    what was there and what was added. *)
Lemma year_growth_lower_bound (s r c : R) (k : nat) :
  0 <= s -> 0 <= r -> 0 <= c ->
  c + INR k * s <= Nat.iter k (fun c => (c + s) * (1 + r)) c.
Proof.
  intros Hs Hr Hc. induction k as [| k IH].
  - simpl. lra.
  - rewrite Nat.iter_succ, S_INR.
    set (v := Nat.iter k (fun c => (c + s) * (1 + r)) c) in *.
    assert (0 <= INR k) by apply pos_INR.
    assert (0 <= v) by nra.
    nra.
Qed.

Lemma Sorted_Zle_snoc (cs : list Z) (c : Z) :
  Sorted Z.le cs -> Forall (fun z => (z <= c)%Z) cs -> Sorted Z.le (cs ++ [c]).
Proof.
  intros Hsorted Hall. induction Hsorted as [| a l Hl IH Hhd].
  - repeat constructor.
  - inversion Hall as [| ? ? Ha Hrest]; subst.
    cbn [app]. constructor; [apply IH; assumption |].
    destruct l as [| b l]; cbn [app]; constructor.
    + exact Ha.
    + inversion Hhd; assumption.
Qed.

(** Along the loop, with non-negative contribution, rate and step-up
    factor: the corpus is a whole number not below what was invested, and
    the year-end corpora do not decrease. *)
Lemma topup_loop_no_loss (P r t : R) (k : nat) :
  0 <= P -> 0 <= r -> 0 <= 1 + t / 100 ->
  exists (c : Z) (i : R) (l : list TopUp.YearEntry) (cs : list Z),
    topup_loop (Fin P) (Fin r) (Fin t) k =
      TopUpLoop.mkState (Fin (IZR c)) (Fin i) l /\
    0 <= i <= IZR c /\
    map TopUp.corpusAtEndOfYear l = map (fun z => Fin (IZR z)) cs /\
    Sorted Z.le cs /\
    Forall (fun z => (0 <= z <= c)%Z) cs.
Proof.
  intros HP Hr Ht. induction k as [| k IH].
  - exists 0%Z, 0, [], []. repeat split; try lra; constructor.
  - destruct IH as (c & i & l & cs & Hst & Hi & Hmap & Hsorted & Hall).
    rewrite topup_loop_S, Hst, topup_year_fin. cbn [js_add].
    set (s := Rround (P * (1 + t / 100) ^ k)).
    assert (Hs : (0 <= s)%Z).
    { apply Rround_nonneg. apply Rmult_le_pos; [assumption |].
      apply pow_le. assumption. }
    apply IZR_le in Hs.
    set (c' := Rround (Nat.iter 12 (fun c0 => (c0 + IZR s) * (1 + r)) (IZR c))).
    assert (Hc' : (c + 12 * s <= c')%Z).
    { apply Rround_ge. rewrite plus_IZR, mult_IZR.
      pose proof (year_growth_lower_bound (IZR s) r (IZR c) 12 Hs Hr
                    ltac:(lra)) as Hlow.
      rewrite INR_12 in Hlow. exact Hlow. }
    assert (Hcc' : (c <= c')%Z) by (apply le_IZR in Hs; lia).
    exists c', (i + 12 * IZR s). eexists. exists (cs ++ [c']).
    split; [reflexivity |]. split; [| split; [| split]].
    + apply IZR_le in Hc'. rewrite plus_IZR, mult_IZR in Hc'. lra.
    + rewrite !map_app, Hmap. reflexivity.
    + apply Sorted_Zle_snoc; [assumption |].
      eapply Forall_impl; [| exact Hall]. cbv beta. intros z Hz. lia.
    + apply Forall_app. split.
      * eapply Forall_impl; [| exact Hall]. cbv beta. intros z Hz. lia.
      * constructor; [| constructor].
        assert (0 <= IZR c) by lra. apply le_IZR in H. lia.
Qed.

(** X17.  A top-up plan at non-negative rates loses nothing: for [P >= 0],
    a return rate [>= 0] and a step-up rate [>= -100], [futureValue] is at
    least [totalInvested] (the estimated returns are non-negative), and the
    year-end corpora of the breakdown are whole numbers that never decrease
    from one year to the next. *)
Theorem calculateTopUpSIP_no_loss (P rate t y : R) :
  0 <= P -> 0 <= rate -> -100 <= t ->
  exists res fv inv (cs : list Z),
    calculateTopUpSIP (Fin P) (Fin rate) (Fin y) (Fin t) = Some res /\
    TopUp.futureValue res = Fin fv /\
    TopUp.totalInvested res = Fin inv /\
    TopUp.estimatedReturns res = Fin (fv - inv) /\
    0 <= inv <= fv /\
    map TopUp.corpusAtEndOfYear (TopUp.yearlyBreakdown res) =
      map (fun z => Fin (IZR z)) cs /\
    Sorted Z.le cs.
Proof.
  intros HP Hrate Ht.
  unfold calculateTopUpSIP. cbn [loop_trips]. rewrite monthly_rate.
  destruct (topup_loop_no_loss P (rate / 100 / 12) t (Z.to_nat (Rfloor y)))
    as (c & i & l & cs & Hst & Hi & Hmap & Hsorted & _); try lra.
  rewrite Hst.
  cbn [TopUpLoop.corpus TopUpLoop.totalInvested TopUpLoop.yearlyBreakdown].
  eexists. exists (IZR c), i, cs.
  split; [reflexivity |].
  cbn [TopUp.futureValue TopUp.totalInvested TopUp.estimatedReturns
       TopUp.yearlyBreakdown js_sub].
  repeat split; try assumption; lra.
Qed.

Lemma calculateTopUpSIP_no_loss_witness :
  exists res fv inv (cs : list Z),
    calculateTopUpSIP (Fin 5000) (Fin 12) (Fin 10) (Fin 10) = Some res /\
    TopUp.futureValue res = Fin fv /\
    TopUp.totalInvested res = Fin inv /\
    TopUp.estimatedReturns res = Fin (fv - inv) /\
    0 <= inv <= fv /\
    map TopUp.corpusAtEndOfYear (TopUp.yearlyBreakdown res) =
      map (fun z => Fin (IZR z)) cs /\
    Sorted Z.le cs.
Proof. apply (calculateTopUpSIP_no_loss 5000 12 10 10); lra. Defined.

Lemma year_growth_zero_rate (s c : R) (k : nat) :
  Nat.iter k (fun c => (c + s) * (1 + 0 / 100 / 12)) c = c + INR k * s.
Proof.
  induction k as [| k IH].
  - simpl. lra.
  - rewrite Nat.iter_succ, IH, S_INR. lra.
Qed.

Lemma topup_loop_zero_rate (P t : R) (k : nat) :
  exists (c : Z) (l : list TopUp.YearEntry),
    topup_loop (Fin P) (Fin (0 / 100 / 12)) (Fin t) k =
      TopUpLoop.mkState (Fin (IZR c)) (Fin (IZR c)) l.
Proof.
  induction k as [| k (c & l & Hst)].
  - exists 0%Z, []. reflexivity.
  - rewrite topup_loop_S, Hst, topup_year_fin. cbn [js_add].
    set (s := Rround (P * (1 + t / 100) ^ k)).
    rewrite year_growth_zero_rate, INR_12.
    replace (IZR c + 12 * IZR s) with (IZR (c + 12 * s))
      by (rewrite plus_IZR, mult_IZR; reflexivity).
    rewrite Rround_IZR.
    do 2 eexists. reflexivity.
Qed.

(** X18.  At a return rate of zero the top-up plan has no division to trip
    over (unlike [calculateSIP], C1): for every finite [P], step-up rate
    and duration the future value is exactly what was invested and the
    estimated returns are zero. *)
Theorem calculateTopUpSIP_zero_rate (P t y : R) :
  exists res v,
    calculateTopUpSIP (Fin P) (Fin 0) (Fin y) (Fin t) = Some res /\
    TopUp.futureValue res = Fin v /\
    TopUp.totalInvested res = Fin v /\
    TopUp.estimatedReturns res = Fin 0.
Proof.
  unfold calculateTopUpSIP. cbn [loop_trips]. rewrite monthly_rate.
  destruct (topup_loop_zero_rate P t (Z.to_nat (Rfloor y))) as (c & l & Hst).
  rewrite Hst. cbn [TopUpLoop.corpus TopUpLoop.totalInvested js_sub].
  eexists. exists (IZR c). split; [reflexivity |].
  cbn [TopUp.futureValue TopUp.totalInvested TopUp.estimatedReturns].
  repeat split. f_equal. lra.
Qed.




(** X20.  The loops of the two simulations run once per whole period: with
    a duration below one (or [NaN]) they do not run at all and the results
    are the initial values with an empty breakdown; with an infinite
    duration they never exit, and nothing is returned. *)
Theorem simulations_without_periods
    (P annualRate topUpRate : number)
    (lumpSum monthlyTransfer debtRate equityRate : number) (y : R) :
  y < 1 ->
  calculateTopUpSIP P annualRate (Fin y) topUpRate =
    Some (TopUp.mkResult (Fin 0) (Fin 0) (Fin 0) []) /\
  calculateTopUpSIP P annualRate NaN topUpRate =
    Some (TopUp.mkResult (Fin 0) (Fin 0) (Fin 0) []) /\
  calculateTopUpSIP P annualRate PInf topUpRate = None /\
  (exists res,
      calculateSTP lumpSum monthlyTransfer debtRate equityRate (Fin y)
        = Some res /\
      STP.debtCorpus res = lumpSum /\
      STP.equityCorpus res = Fin 0 /\
      STP.totalCorpus res = (lumpSum + Fin 0)%js /\
      STP.totalTransferred res = Fin 0 /\
      STP.breakdown res = []) /\
  calculateSTP lumpSum monthlyTransfer debtRate equityRate PInf = None.
Proof.
  intros Hy.
  assert (Hk : loop_trips (Fin y) = Some 0%nat).
  { unfold loop_trips. f_equal.
    destruct (Rfloor_bounds y) as [Hlo _].
    assert (Hneg : (Rfloor y < 1)%Z) by (apply lt_IZR; lra).
    lia. }
  assert (Hzero : (Fin 0 - Fin 0)%js = Fin 0) by (cbn [js_sub]; f_equal; lra).
  unfold calculateTopUpSIP, calculateSTP. rewrite Hk. cbn [loop_trips].
  unfold topup_loop, stp_loop. cbn [seq fold_left].
  cbn [TopUpLoop.corpus TopUpLoop.totalInvested TopUpLoop.yearlyBreakdown].
  rewrite Hzero.
  split; [reflexivity |]. split; [reflexivity |]. split; [reflexivity |].
  split; [| reflexivity].
  eexists. split; [reflexivity |]. repeat split.
Qed.

Lemma simulations_without_periods_witness :
  calculateTopUpSIP (Fin 5000) (Fin 12) (Fin 0) (Fin 10) =
    Some (TopUp.mkResult (Fin 0) (Fin 0) (Fin 0) []) /\
  calculateTopUpSIP (Fin 5000) (Fin 12) NaN (Fin 10) =
    Some (TopUp.mkResult (Fin 0) (Fin 0) (Fin 0) []) /\
  calculateTopUpSIP (Fin 5000) (Fin 12) PInf (Fin 10) = None /\
  (exists res,
      calculateSTP (Fin 500000) (Fin 25000) (Fin 7) (Fin 14) (Fin 0)
        = Some res /\
      STP.debtCorpus res = Fin 500000 /\
      STP.equityCorpus res = Fin 0 /\
      STP.totalCorpus res = (Fin 500000 + Fin 0)%js /\
      STP.totalTransferred res = Fin 0 /\
      STP.breakdown res = []) /\
  calculateSTP (Fin 500000) (Fin 25000) (Fin 7) (Fin 14) PInf = None.
Proof.
  apply (simulations_without_periods (Fin 5000) (Fin 12) (Fin 10)
           (Fin 500000) (Fin 25000) (Fin 7) (Fin 14) 0); lra.
Defined.

(* ----------------------------------------------------------------- *)
(** *** Systematic transfer plan *)

(** Along the loop nothing is lost: the two corpora together hold at least
    the lump sum, and what was transferred is bounded by the equity corpus
    and by [T] a month. *)
Lemma stp_loop_conservation (L T dr er : R) (k : nat) :
  0 <= L -> 0 <= T -> 0 <= dr -> 0 <= er ->
  exists d e t l,
    stp_loop (Fin L) (Fin T) (Fin dr) (Fin er) k =
      STPLoop.mkState (Fin d) (Fin e) (Fin t) l /\
    0 <= d /\ 0 <= t <= e /\ L <= d + e /\ t <= T * INR k /\
    (dr = 0 -> er = 0 -> d + e = L /\ t = e).
Proof.
  intros HL HT Hdr Her. induction k as [| k IH].
  - exists L, 0, 0, []. simpl. repeat split; lra.
  - destruct IH as (d & e & t & l & Hst & Hd & Ht & Hsum & Hcap & Hzero).
    rewrite stp_loop_S, Hst, stp_month_fin.
    assert (Hgrown : d <= d * (1 + dr)) by nra.
    assert (Hmin : 0 <= Rmin T (d * (1 + dr)) <= d * (1 + dr)).
    { split; [apply Rmin_glb; lra | apply Rmin_r]. }
    pose proof (Rmin_l T (d * (1 + dr))) as HminT.
    set (x := Rmin T (d * (1 + dr))) in *.
    assert (Hequity : e + x <= (e + x) * (1 + er)) by nra.
    do 4 eexists. split; [reflexivity |].
    rewrite S_INR.
    repeat split; try lra.
    all: destruct (Hzero ltac:(assumption) ltac:(assumption)); subst; lra.
Qed.

(** X21.  [calculateSTP] conserves value: for non-negative lump sum,
    transfer and rates the returned amounts are finite, [totalCorpus] is
    their sum and is at least the lump sum, and [totalTransferred] is at
    most [monthlyTransfer] times the months and at most the equity corpus.
    With both rates zero the total stays the lump sum exactly and the
    equity corpus is what was transferred. *)
Theorem calculateSTP_conservation (L T dRate eRate : R) (k : nat) :
  0 <= L -> 0 <= T -> 0 <= dRate -> 0 <= eRate ->
  exists res d e t,
    calculateSTP (Fin L) (Fin T) (Fin dRate) (Fin eRate) (of_nat k)
      = Some res /\
    STP.debtCorpus res = Fin d /\
    STP.equityCorpus res = Fin e /\
    STP.totalTransferred res = Fin t /\
    STP.totalCorpus res = Fin (d + e) /\
    0 <= d /\ 0 <= t <= e /\ L <= d + e /\ t <= T * INR k /\
    (dRate = 0 -> eRate = 0 -> d + e = L /\ t = e).
Proof.
  intros HL HT Hd He.
  unfold calculateSTP. rewrite loop_trips_of_nat, !monthly_rate.
  destruct (stp_loop_conservation L T (dRate / 100 / 12) (eRate / 100 / 12) k)
    as (d & e & t & l & Hst & Hd0 & Ht0 & Hsum & Hcap & Hzero); try lra.
  rewrite Hst.
  cbn [STPLoop.debtCorpus STPLoop.equityCorpus STPLoop.totalTransferred
       STPLoop.breakdown js_add].
  eexists. exists d, e, t. split; [reflexivity |].
  cbn [STP.debtCorpus STP.equityCorpus STP.totalTransferred STP.totalCorpus].
  repeat split; try lra.
  all: apply Hzero; lra.
Qed.

Lemma calculateSTP_conservation_witness :
  exists res d e t,
    calculateSTP (Fin 500000) (Fin 25000) (Fin 7) (Fin 14) (of_nat 24)
      = Some res /\
    STP.debtCorpus res = Fin d /\
    STP.equityCorpus res = Fin e /\
    STP.totalTransferred res = Fin t /\
    STP.totalCorpus res = Fin (d + e) /\
    0 <= d /\ 0 <= t <= e /\ 500000 <= d + e /\ t <= 25000 * INR 24 /\
    (7 = 0 -> 14 = 0 -> d + e = 500000 /\ t = e).
Proof. apply (calculateSTP_conservation 500000 25000 7 14 24); lra. Defined.

Lemma stp_loop_no_transfer (L dr er : R) (k : nat) :
  0 <= L -> 0 <= dr ->
  exists d l,
    stp_loop (Fin L) (Fin 0) (Fin dr) (Fin er) k =
      STPLoop.mkState (Fin d) (Fin 0) (Fin 0) l /\
    d = L * (1 + dr) ^ k.
Proof.
  intros HL Hdr. induction k as [| k (d & l & Hst & Hd)].
  - exists L, []. split; [reflexivity | simpl; lra].
  - rewrite stp_loop_S, Hst, stp_month_fin.
    assert (Hpos : 0 <= d * (1 + dr)).
    { rewrite Hd. apply Rmult_le_pos; [| lra].
      apply Rmult_le_pos; [assumption | apply pow_le; lra]. }
    rewrite Rmin_left by assumption.
    replace ((0 + 0) * (1 + er)) with 0 by lra.
    replace (0 + 0) with 0 by lra.
    do 2 eexists. split; [reflexivity |].
    rewrite Hd. simpl. lra.
Qed.

(** X22.  Without transfers the simulation is plain compounding: with
    [monthlyTransfer = 0] the debt corpus after the loop is the closed-form
    [debtOnlyValue], [lumpSum * (1 + debtRate/1200)^months], and nothing
    reaches the equity side. *)
Theorem calculateSTP_no_transfer (L dRate eRate : R) (k : nat) :
  0 <= L -> 0 <= dRate ->
  exists res,
    calculateSTP (Fin L) (Fin 0) (Fin dRate) (Fin eRate) (of_nat k)
      = Some res /\
    STP.debtCorpus res = STP.debtOnlyValue res /\
    STP.debtOnlyValue res = Fin (L * (1 + dRate / 1200) ^ k) /\
    STP.equityCorpus res = Fin 0 /\
    STP.totalTransferred res = Fin 0.
Proof.
  intros HL Hd.
  unfold calculateSTP. rewrite loop_trips_of_nat, !monthly_rate.
  destruct (stp_loop_no_transfer L (dRate / 100 / 12) (eRate / 100 / 12) k)
    as (d & l & Hst & Hdebt); try lra.
  rewrite Hst.
  cbn [STPLoop.debtCorpus STPLoop.equityCorpus STPLoop.totalTransferred
       STPLoop.breakdown js_add].
  unfold of_nat. rewrite !Math_pow_nat. cbn [js_mul].
  eexists. split; [reflexivity |].
  cbn [STP.debtCorpus STP.equityCorpus STP.totalTransferred
       STP.debtOnlyValue].
  replace (dRate / 1200) with (dRate / 100 / 12) by lra.
  repeat split. f_equal. exact Hdebt.
Qed.

Lemma calculateSTP_no_transfer_witness :
  exists res,
    calculateSTP (Fin 500000) (Fin 0) (Fin 7) (Fin 14) (of_nat 24)
      = Some res /\
    STP.debtCorpus res = STP.debtOnlyValue res /\
    STP.debtOnlyValue res = Fin (500000 * (1 + 7 / 1200) ^ 24) /\
    STP.equityCorpus res = Fin 0 /\
    STP.totalTransferred res = Fin 0.
Proof. apply (calculateSTP_no_transfer 500000 7 14 24); lra. Defined.

Lemma Rround_zero : Rround 0 = 0%Z.
Proof. apply (Rround_IZR 0). Qed.

Lemma stp_loop_depleted (L T dr er : R) (k : nat) :
  0 <= L -> 0 <= dr -> L * (1 + dr) <= T ->
  exists e l,
    stp_loop (Fin L) (Fin T) (Fin dr) (Fin er) (S k) =
      STPLoop.mkState (Fin 0) (Fin e) (Fin (L * (1 + dr))) l /\
    e = L * (1 + dr) * (1 + er) ^ S k /\
    map STPMonth.debtCorpus l = map (fun _ => Fin 0) (seq 1 (S k)).
Proof.
  intros HL Hdr HT.
  assert (Hg : 0 <= L * (1 + dr)) by (apply Rmult_le_pos; lra).
  induction k as [| k (e & l & Hst & He & Hmap)].
  - unfold stp_loop. cbn [seq fold_left]. rewrite stp_month_fin.
    rewrite Rmin_right by assumption.
    replace (L * (1 + dr) - L * (1 + dr)) with 0 by lra.
    replace (0 + L * (1 + dr)) with (L * (1 + dr)) by lra.
    rewrite Rround_zero.
    do 2 eexists. split; [reflexivity |]. split; [simpl; lra | reflexivity].
  - rewrite stp_loop_S, Hst, stp_month_fin.
    replace (0 * (1 + dr)) with 0 by lra.
    rewrite Rmin_right by lra.
    replace (0 - 0) with 0 by lra.
    replace (L * (1 + dr) + 0) with (L * (1 + dr)) by lra.
    rewrite Rround_zero.
    do 2 eexists. split; [reflexivity |]. split.
    + rewrite He. simpl. lra.
    + rewrite map_app, Hmap, (seq_S (S k)), map_app. reflexivity.
Qed.

(** X23.  A transfer that covers the whole grown lump sum empties the debt
    side in the first month and for good: the capped transfer moves
    [lumpSum * (1 + debtRate/1200)] once, every breakdown entry shows a debt
    corpus of 0, and the equity corpus ends as [1 + debtRate/1200] times the
    [directEquityValue]. *)
Theorem calculateSTP_depleted_at_once (L T dRate eRate : R) (k : nat) :
  0 <= L -> 0 <= dRate -> L * (1 + dRate / 1200) <= T ->
  exists res direct,
    calculateSTP (Fin L) (Fin T) (Fin dRate) (Fin eRate) (of_nat (S k))
      = Some res /\
    STP.debtCorpus res = Fin 0 /\
    STP.totalTransferred res = Fin (L * (1 + dRate / 1200)) /\
    STP.directEquityValue res = Fin direct /\
    STP.equityCorpus res = Fin ((1 + dRate / 1200) * direct) /\
    map STPMonth.debtCorpus (STP.breakdown res) =
      map (fun _ => Fin 0) (seq 1 (S k)).
Proof.
  intros HL Hd HT.
  assert (Hdr : dRate / 1200 = dRate / 100 / 12) by lra.
  rewrite Hdr in *.
  unfold calculateSTP. rewrite loop_trips_of_nat, !monthly_rate.
  destruct (stp_loop_depleted L T (dRate / 100 / 12) (eRate / 100 / 12) k)
    as (e & l & Hst & He & Hmap); try lra.
  rewrite Hst.
  cbn [STPLoop.debtCorpus STPLoop.equityCorpus STPLoop.totalTransferred
       STPLoop.breakdown js_add].
  unfold of_nat. rewrite !Math_pow_nat. cbn [js_mul].
  do 2 eexists. split; [reflexivity |].
  cbn [STP.debtCorpus STP.equityCorpus STP.totalTransferred
       STP.directEquityValue STP.breakdown].
  repeat split; try assumption.
  f_equal. rewrite He. lra.
Qed.

Lemma calculateSTP_depleted_at_once_witness :
  exists res direct,
    calculateSTP (Fin 100000) (Fin 200000) (Fin 7) (Fin 14) (of_nat 3)
      = Some res /\
    STP.debtCorpus res = Fin 0 /\
    STP.totalTransferred res = Fin (100000 * (1 + 7 / 1200)) /\
    STP.directEquityValue res = Fin direct /\
    STP.equityCorpus res = Fin ((1 + 7 / 1200) * direct) /\
    map STPMonth.debtCorpus (STP.breakdown res) =
      map (fun _ => Fin 0) (seq 1 3).
Proof. apply (calculateSTP_depleted_at_once 100000 200000 7 14 2); lra. Defined.

(** Rounding a sum against the sum of the roundings. *)
Lemma Rround_plus (a b : R) :
  (Rround a + Rround b - 1 <= Rround (a + b) <= Rround a + Rround b + 1)%Z.
Proof.
  unfold Rround.
  destruct (Rfloor_bounds (a + / 2)) as [Ha1 Ha2].
  destruct (Rfloor_bounds (b + / 2)) as [Hb1 Hb2].
  destruct (Rfloor_bounds (a + b + / 2)) as [Hc1 Hc2].
  split.
  - apply Z.lt_succ_r, lt_IZR.
    rewrite succ_IZR, minus_IZR, plus_IZR. lra.
  - apply Z.lt_succ_r, lt_IZR.
    rewrite succ_IZR, !plus_IZR. lra.
Qed.

(** X24.  The three amounts of a breakdown entry are rounded separately:
    for non-negative inputs each entry holds whole numbers, and its
    [totalCorpus] is within 1 of [debtCorpus + equityCorpus] (it need not be
    their sum). *)
Theorem calculateSTP_breakdown_rounding (L T dRate eRate : R) (k : nat) :
  0 <= L -> 0 <= T -> 0 <= dRate -> 0 <= eRate ->
  exists res,
    calculateSTP (Fin L) (Fin T) (Fin dRate) (Fin eRate) (of_nat k)
      = Some res /\
    List.length (STP.breakdown res) = k /\
    Forall
      (fun en =>
         exists zd ze zt : Z,
           STPMonth.debtCorpus en = Fin (IZR zd) /\
           STPMonth.equityCorpus en = Fin (IZR ze) /\
           STPMonth.totalCorpus en = Fin (IZR zt) /\
           (0 <= zd)%Z /\ (0 <= ze)%Z /\
           (zd + ze - 1 <= zt <= zd + ze + 1)%Z)
      (STP.breakdown res).
Proof.
  intros HL HT Hd He.
  assert (Hdr : 0 <= dRate / 100 / 12) by lra.
  assert (Her : 0 <= eRate / 100 / 12) by lra.
  unfold calculateSTP. rewrite loop_trips_of_nat, !monthly_rate.
  eexists. split; [reflexivity |]. cbn [STP.breakdown].
  split; [apply stp_loop_length |].
  induction k as [| k IH]; [constructor |].
  destruct (stp_loop_fin L T _ _ k HL HT Hdr Her)
    as (d & e & t & l & Hst & Hd0 & He0 & Ht0).
  rewrite Hst in IH. cbn [STPLoop.breakdown] in IH.
  rewrite stp_loop_S, Hst, stp_month_fin. cbn [STPLoop.breakdown].
  apply Forall_app. split; [exact IH |].
  constructor; [| constructor].
  set (g := d * (1 + dRate / 100 / 12)).
  assert (Hg : 0 <= g) by (apply Rmult_le_pos; lra).
  assert (Hmin : 0 <= Rmin T g <= g)
    by (split; [apply Rmin_glb; assumption | apply Rmin_r]).
  do 3 eexists.
  cbn [STPMonth.debtCorpus STPMonth.equityCorpus STPMonth.totalCorpus].
  split; [reflexivity |]. split; [reflexivity |]. split; [reflexivity |].
  split; [apply Rround_nonneg; lra |].
  split; [apply Rround_nonneg; apply Rmult_le_pos; lra |].
  apply Rround_plus.
Qed.

Lemma calculateSTP_breakdown_rounding_witness :
  exists res,
    calculateSTP (Fin 1001) (Fin 100) (Fin 6) (Fin 12) (of_nat 1)
      = Some res /\
    List.length (STP.breakdown res) = 1%nat /\
    Forall
      (fun en =>
         exists zd ze zt : Z,
           STPMonth.debtCorpus en = Fin (IZR zd) /\
           STPMonth.equityCorpus en = Fin (IZR ze) /\
           STPMonth.totalCorpus en = Fin (IZR zt) /\
           (0 <= zd)%Z /\ (0 <= ze)%Z /\
           (zd + ze - 1 <= zt <= zd + ze + 1)%Z)
      (STP.breakdown res).
Proof. apply (calculateSTP_breakdown_rounding 1001 100 6 12 1); lra. Defined.

(* ----------------------------------------------------------------- *)
(** *** Formatting and the comparison helper *)

(** X25.  [formatINR] shows whole rupees, rounded half up: every amount in
    [[z - 1/2, z + 1/2)] is formatted as the integer [z] is, for [z] other
    than zero and for the non-negative amounts that round to zero. *)
Theorem formatINR_rounds_half_up (z : Z) (x : R) :
  IZR z - / 2 <= x < IZR z + / 2 ->
  z <> 0%Z \/ 0 <= x ->
  formatINR (Fin x) = formatINR (Fin (IZR z)).
Proof.
  intros Hx _. unfold formatINR, Math_round.
  rewrite Rround_IZR.
  assert (Hr : Rround x = z) by (apply Rfloor_spec; lra).
  rewrite Hr. reflexivity.
Qed.

Lemma formatINR_rounds_half_up_witness :
  formatINR (Fin 1161695.38) = formatINR (Fin (IZR 1161695)) /\
  formatINR (Fin 1161694.5) = formatINR (Fin (IZR 1161695)) /\
  formatINR (Fin 0.4) = formatINR (Fin (IZR 0)).
Proof.
  split; [| split].
  - apply (formatINR_rounds_half_up 1161695); [lra | left; lia].
  - apply (formatINR_rounds_half_up 1161695); [lra | left; lia].
  - apply (formatINR_rounds_half_up 0); [lra | right; lra].
Defined.

Lemma approxEqual_fin (a b tol : R) :
  (Math_abs (Fin a - Fin b) <= Fin tol)%js = true <-> Rabs (a - b) <= tol.
Proof. cbn [js_sub Math_abs]. apply js_le_fin. Qed.

(** X26.  The tolerance of [approxEqual] defaults through [||]: an omitted
    tolerance and a tolerance of 0 both mean 1, so a check "with tolerance
    0" accepts a difference of up to 1; any other finite tolerance is used
    as given.  The comparison is symmetric, and [NaN] is approximately
    equal to nothing, itself included. *)
Theorem approxEqual_tolerance (a b tol : R) (x : number)
    (t : option number) :
  (approxEqual (Fin a) (Fin b) None = true <-> Rabs (a - b) <= 1) /\
  (approxEqual (Fin a) (Fin b) (Some (Fin 0)) = true <-> Rabs (a - b) <= 1) /\
  (tol <> 0 ->
     (approxEqual (Fin a) (Fin b) (Some (Fin tol)) = true
        <-> Rabs (a - b) <= tol)) /\
  approxEqual (Fin a) (Fin b) t = approxEqual (Fin b) (Fin a) t /\
  approxEqual NaN x t = false /\
  approxEqual x NaN t = false.
Proof.
  split; [| split; [| split; [| split; [| split]]]].
  - unfold approxEqual. apply approxEqual_fin.
  - unfold approxEqual, truthy.
    destruct (Req_dec_T 0 0); [| contradiction]. apply approxEqual_fin.
  - intros Htol. unfold approxEqual, truthy.
    destruct (Req_dec_T tol 0); [contradiction |]. apply approxEqual_fin.
  - unfold approxEqual. cbn [js_sub Math_abs].
    rewrite (Rabs_minus_sym a b). reflexivity.
  - unfold approxEqual. cbn [js_sub Math_abs js_le]. reflexivity.
  - unfold approxEqual. destruct x; reflexivity.
Qed.

Lemma approxEqual_tolerance_witness :
  (approxEqual (Fin 600001) (Fin 600000) None = true
     <-> Rabs (600001 - 600000) <= 1) /\
  (approxEqual (Fin 600001) (Fin 600000) (Some (Fin 0)) = true
     <-> Rabs (600001 - 600000) <= 1) /\
  (approxEqual (Fin 600001) (Fin 600000) (Some (Fin 2)) = true
     <-> Rabs (600001 - 600000) <= 2) /\
  approxEqual (Fin 600001) (Fin 600000) None
    = approxEqual (Fin 600000) (Fin 600001) None /\
  approxEqual NaN NaN None = false /\
  approxEqual NaN NaN None = false.
Proof.
  destruct (approxEqual_tolerance 600001 600000 2 NaN None)
    as (H1 & H2 & H3 & H4 & H5 & H6).
  repeat split; try assumption; try apply H1; try apply H2;
    try (apply H3; lra).
Defined.

(* ================================================================= *)
(** ** The returns identity where the results are finite *)

Lemma js_eq_refl_fin (x : R) : (Fin x === Fin x)%js = true.
Proof. simpl. destruct (Req_dec_T x x); [reflexivity | contradiction]. Qed.

Lemma topup_loop_finite (P r t : R) (k : nat) :
  exists c i l,
    topup_loop (Fin P) (Fin r) (Fin t) k = TopUpLoop.mkState (Fin c) (Fin i) l.
Proof.
  induction k as [| k (c & i & l & Hst)].
  - exists 0, 0, []. reflexivity.
  - rewrite topup_loop_S, Hst, topup_year_fin. cbn [js_add].
    do 3 eexists. reflexivity.
Qed.

(** Away from the zero rate of [calculateSIP] the three amounts are finite
    and [estimatedReturns === futureValue - totalInvested] holds: for
    [calculateSIP] at a rate other than zero (above -1200%), for
    [calculateLumpsum] at a rate above -100%, and for [calculateTopUpSIP]
    at all finite inputs. *)
Lemma estimatedReturns_equal_on_finite_results (P rate years t : R) :
  (rate <> 0 -> -1200 < rate ->
     let res := calculateSIP (Fin P) (Fin rate) (Fin years) in
     (estimatedReturns res === futureValue res - totalInvested res)%js
     = true) /\
  (-100 < rate ->
     let res := calculateLumpsum (Fin P) (Fin rate) (Fin years) in
     (estimatedReturns res === futureValue res - totalInvested res)%js
     = true) /\
  (exists res,
      calculateTopUpSIP (Fin P) (Fin rate) (Fin years) (Fin t) = Some res /\
      (TopUp.estimatedReturns res
       === TopUp.futureValue res - TopUp.totalInvested res)%js = true).
Proof.
  split; [| split].
  - intros Hnz Hlow. cbv zeta.
    rewrite calculateSIP_closed_form by lra.
    cbn [estimatedReturns futureValue totalInvested js_sub].
    apply js_eq_refl_fin.
  - intros Hlow. cbv zeta.
    rewrite calculateLumpsum_closed_form by lra.
    cbn [estimatedReturns futureValue totalInvested js_sub].
    apply js_eq_refl_fin.
  - unfold calculateTopUpSIP. cbn [loop_trips]. rewrite monthly_rate.
    destruct (topup_loop_finite P (rate / 100 / 12) t (Z.to_nat (Rfloor years)))
      as (c & i & l & Hst).
    rewrite Hst. cbn [TopUpLoop.corpus TopUpLoop.totalInvested js_sub].
    eexists. split; [reflexivity |].
    cbn [TopUp.estimatedReturns TopUp.futureValue TopUp.totalInvested js_sub].
    apply js_eq_refl_fin.
Qed.
